(** * Guide sequences, previous/next navigation and banners

    A shallow embedding of [build/inject-previous-next.ts] and of the banner
    injection module of the build, with the properties its specification
    states about them.

    Conventions.
    - A JavaScript value that may be [undefined] or [null] is an [option];
      a call that may throw returns a [Result].
    - Objects used as dictionaries ([pageSequences], [l10nStrings], the
      per-message blocks) are [gmap]s with string keys.
    - Front-matter weights are the integer literals authors write in the
      front-matter, so a weight is a [Z].
    - The cheerio handle [$] is the part of the page the two passes write
      to: the children of [<body>] and of [div#_body], top-most first, so
      that [prepend] is a [cons]. *)

From Stdlib Require Import ZArith Ascii String.
From stdpp Require Import gmap strings list sorting.

Local Open Scope string_scope.
Local Open Scope Z_scope.

(** ** Exceptions *)

Inductive Error :=
| TypeError    (* reading a property of [undefined] *)
| SystemError  (* a failed [fs] call, e.g. ENOENT *)
| ParseError.  (* front-matter that is not valid YAML *)

Inductive Result (A : Type) :=
| Ok (a : A)
| Throw (e : Error).
Arguments Ok {A} a.
Arguments Throw {A} e.

(** Sequencing of calls that may throw; [x ← m; k] is stdpp's notation. *)
#[global] Instance Result_bind : MBind Result := λ A B k m,
  match m with
  | Ok a => k a
  | Throw e => Throw e
  end.
#[global] Instance Result_ret : MRet Result := λ A a, Ok a.

(** ** Data model *)

(** One entry of a page sequence: [{ slug: matter.slug, weight: matter.weight }].
    The slug is copied from the front-matter as it is and so may be
    [undefined]. *)
Record SequenceEntry := {
  slug : option string;
  weight : Z;
}.

#[global] Instance SequenceEntry_eq_dec : EqDecision SequenceEntry.
Proof. solve_decision. Defined.

(** [{ previous: null, next: null }] and its later assignments. *)
Record PnEntries := {
  previous : option SequenceEntry;
  next : option SequenceEntry;
}.

(** ** JavaScript array built-ins *)

Section Arrays.
Context {A : Type}.

Fixpoint findIndex_from (p : A → bool) (l : list A) (i : Z) : Z :=
  match l with
  | [] => -1
  | x :: l' => if p x then i else findIndex_from p l' (i + 1)
  end.

(** [Array.prototype.findIndex]: the first index whose element satisfies
    [p], or [-1]. *)
Definition findIndex (p : A → bool) (l : list A) : Z := findIndex_from p l 0.

(** [l[i]] for a numeric index: [undefined] out of range. *)
Definition index (l : list A) (i : Z) : option A :=
  if i <? 0 then None else l !! Z.to_nat i.

(** [l.length] *)
Definition len (l : list A) : Z := Z.of_nat (length l).
End Arrays.

(** [page.slug === slug] where [slug] is a string: [undefined] equals no
    string. *)
Definition slug_is (s : string) (page : SequenceEntry) : bool :=
  match slug page with
  | Some s' => String.eqb s' s
  | None => false
  end.

(** ** Navigation resolver *)

Definition getPreviousNextEntries (slug_ : string) (sequence : list SequenceEntry)
  : PnEntries :=
  let pageIndex := findIndex (slug_is slug_) sequence in
  let previous_ :=
    if 0 <? pageIndex then index sequence (pageIndex - 1) else None in
  let next_ :=
    if pageIndex <? len sequence - 1 then index sequence (pageIndex + 1) else None in
  {| previous := previous_; next := next_ |}.


(** ** File system and front-matter *)

(** An [fs.Dirent] as returned by [readdirSync(_, { withFileTypes: true })]. *)
Record Dirent := {
  name : string;
  isDirectory : bool;
}.

(** The attributes of a page's front-matter that the build reads:
    [matter["page-type"]], [matter.weight] and [matter.slug], each
    [undefined] when the document does not declare it. *)
Record DocFrontmatter := {
  matter_page_type : option string;
  matter_weight : option Z;
  matter_slug : option string;
}.

(** The content tree on disk, as [fs] shows it. *)
Record FileSystem := {
  readdirSync : string → Result (list Dirent);
  readFileSync : string → Result string;
}.

(** ** [Array.prototype.sort]

    ECMAScript requires the sort to be stable. It is modelled by a stable
    insertion sort; [stable_sort_unique] below shows that every stable sort
    returns the same array for the comparator of [makeSequence]. *)
Section Sort.
Context {A : Type} (comparefn : A → A → Z).

Fixpoint sort_insert (x : A) (l : list A) : list A :=
  match l with
  | [] => [x]
  | y :: l' => if comparefn x y >? 0 then y :: sort_insert x l' else x :: l
  end.

Definition sort (l : list A) : list A := foldr sort_insert [] l.
End Sort.

(** ** Sequence builder *)

(** The comparator passed to [sequence.sort]. *)
Definition compareWeight (a b : SequenceEntry) : Z :=
  if weight a >? weight b then 1
  else if weight a <? weight b then -1
  else 0.

Section Build.
(** Node's [path.join] and the [front-matter] parser are libraries. *)
Variable path_join : list string → string.
Variable frontmatter : string → Result DocFrontmatter.

(** The body of the [try] block for one child: the entry it pushes, if
    any. *)
Definition tryChild (fs : FileSystem) (parent : string) (child : Dirent)
  : Result (option SequenceEntry) :=
  contents ← readFileSync fs (path_join [parent; name child; "index.md"]);
  matter ← frontmatter contents;
  if decide (matter_page_type matter = Some "guide") then
    match matter_weight matter with
    | Some w => mret (Some {| slug := matter_slug matter; weight := w |})
    | None => mret None
    end
  else mret None.

(** One iteration of the loop; [catch (e) {}] ignores what was thrown. *)
Definition pushChild (fs : FileSystem) (parent : string)
  (sequence : list SequenceEntry) (child : Dirent) : list SequenceEntry :=
  match tryChild fs parent child with
  | Ok (Some entry) => sequence ++ [entry]
  | Ok None => sequence
  | Throw _ => sequence
  end.

Definition makeSequence (fs : FileSystem) (parent : string)
  : Result (list SequenceEntry) :=
  entries ← readdirSync fs parent;
  let children := filter (λ entry : Dirent, isDirectory entry) entries in
  let sequence := foldl (pushChild fs parent) [] children in
  if decide (len children = len sequence)
  then mret (sort compareWeight sequence)
  else mret [].
End Build.


(** ** Strings *)

(** The double-quote character of the HTML attributes. *)
Definition dq : string := String (ascii_of_nat 34) EmptyString.

(** [s.split("/")] for a one-character separator. *)
Fixpoint split (sep : ascii) (s : string) : list string :=
  match s with
  | EmptyString => [EmptyString]
  | String c s' =>
      if Ascii.eqb c sep then EmptyString :: split sep s'
      else match split sep s' with
           | seg :: segs => String c seg :: segs
           | [] => [String c EmptyString]
           end
  end.

(** [l.slice(0, -1)] *)
Definition slice_0_m1 {A} (l : list A) : list A := take (length l - 1)%nat l.

(** [l.join(sep)] *)
Fixpoint join (sep : string) (l : list string) : string :=
  match l with
  | [] => EmptyString
  | [x] => x
  | x :: l' => x +:+ sep +:+ join sep l'
  end.

(** A value interpolated in a template literal: [undefined] prints as
    such. *)
Definition interpolate (v : option string) : string :=
  default "undefined" v.

(** ** The page written to *)

Record Cheerio := {
  body : list string;      (* children of <body>, first child first *)
  div_body : list string;  (* children of div#_body, first child first *)
}.

(** [$("body").prepend(html)] *)
Definition prepend_body (html : string) (doc : Cheerio) : Cheerio :=
  {| body := html :: body doc; div_body := div_body doc |}.

(** [$("div#_body").prepend(html)] *)
Definition prepend_div_body (html : string) (doc : Cheerio) : Cheerio :=
  {| body := body doc; div_body := html :: div_body doc |}.

(** ** Navigation buttons *)

Definition renderButton (locale slug_ label : string) : string :=
  let button := "<li><a class=" +:+ dq +:+ "button secondary" +:+ dq in
  let button := button +:+
    "href=" +:+ dq +:+ "/" +:+ locale +:+ "/docs/" +:+ slug_ +:+ dq +:+ ">" in
  let button := button +:+
    "<span class=" +:+ dq +:+ "button-wrap" +:+ dq +:+ "> " +:+ label
      +:+ " </span></a></li>" in
  button.

(** [slug.split("/").slice(0, -1).join("/")] *)
Definition parentSlug (slug_ : string) : string :=
  join "/" (slice_0_m1 (split "/"%char slug_)).

Definition renderButtons (doc : Cheerio) (locale slug_ : string)
  (pnEntries : PnEntries) : Cheerio :=
  match previous pnEntries, next pnEntries with
  | None, None => doc
  | _, _ =>
      let buttons := "<ul class=" +:+ dq +:+ "prev-next" +:+ dq +:+ ">" in
      let buttons :=
        match previous pnEntries with
        | Some p => buttons +:+ renderButton locale (interpolate (slug p)) "Previous"
        | None => buttons
        end in
      let buttons := buttons +:+ renderButton locale (parentSlug slug_) "Overview" in
      let buttons :=
        match next pnEntries with
        | Some n => buttons +:+ renderButton locale (interpolate (slug n)) "Next"
        | None => buttons
        end in
      let buttons := buttons +:+ "</ul>" in
      prepend_body buttons doc
  end.

(** ** Sequence cache *)

Record FileInfo := {
  root : string;
  folder : string;
}.

(** The module-level state: the cache [pageSequences], and, as call-count
    instrumentation, the directories [makeSequence] has been called on
    (latest first). *)
Record BuildState := {
  pageSequences : gmap string (list SequenceEntry);
  scanned : list string;
}.

Section Inject.
Variable path_join : list string → string.
Variable frontmatter : string → Result DocFrontmatter.

(** The cache lookup of [injectPreviousNext]. A cached value is an array
    and arrays are truthy, the empty one too, so [!sequence] holds
    exactly when the key is absent. *)
Definition cachedSequence (fs : FileSystem) (parent : string) (st : BuildState)
  : Result (list SequenceEntry * BuildState) :=
  match pageSequences st !! parent with
  | Some sequence => mret (sequence, st)
  | None =>
      sequence ← makeSequence path_join frontmatter fs parent;
      mret (sequence,
            {| pageSequences := <[parent := sequence]> (pageSequences st);
               scanned := parent :: scanned st |})
  end.

Definition injectPreviousNext (fs : FileSystem) (doc : Cheerio)
  (locale : string) (fileInfo : FileInfo) (slug_ : string) (st : BuildState)
  : Result (Cheerio * BuildState) :=
  let parent := path_join [root fileInfo; folder fileInfo; "../"] in
  '(sequence, st') ← cachedSequence fs parent st;
  let pnEntries := getPreviousNextEntries slug_ sequence in
  mret (renderButtons doc locale slug_ pnEntries, st').
End Inject.


(** ** Banners *)

(** [metadata["browser-compat"]]: a query string, or an array of them. *)
Inductive BcdQuery :=
| BcdString (query : string)
| BcdArray (queries : list string).

(** The two metadata keys the banner pass reads; [None] is [undefined]. *)
Record Metadata := {
  security_requirements : option (list string);
  browser_compat : option BcdQuery;
}.

(** What [packageBCD] returns, as far as
    [bcd?.data?.__compat?.status?.experimental] looks into it. *)
Record Status := {
  experimental : option bool;
  deprecated : option bool;
}.
Record Compat := { status : option Status }.
Record Data := { __compat : option Compat }.
Record Bcd := { data : option Data }.

(** [l10nStrings]: message identifier to locale to string. *)
Abbreviation L10nStrings := (gmap string (gmap string string)).

(** Truthiness of a string. *)
Definition truthy (s : string) : bool :=
  match s with
  | EmptyString => false
  | String _ _ => true
  end.

(** The banner markup: a notecard [div] of the given class. *)
Definition notecard (bannerClass message : string) : string :=
  "<div class=" +:+ dq +:+ "notecard " +:+ bannerClass +:+ dq +:+ ">"
    +:+ message +:+ "</div>".

Section Banners.
(** Node's [path.join] and [JSON.parse] (read at the type of the table),
    the constant [DEFAULT_LOCALE] of the build, and the resolver
    [packageBCD] of [./resolve-bcd]. *)
Variable path_join : list string → string.
Variable JSON_parse : string → Result L10nStrings.
Variable DEFAULT_LOCALE : string.
Variable packageBCD : string → option Bcd.

(** Loads the table on first use: [Object.keys(l10nStrings).length === 0]. *)

Definition initL10nStrings (fs : FileSystem) (root_ : string)
  (l10nStrings : L10nStrings) : Result L10nStrings :=
  if decide (size l10nStrings = 0%nat)
  then
    let l10nPath := path_join [root_; "jsondata"; "L10n-Common.json"] in
    contents ← readFileSync fs l10nPath;
    JSON_parse contents
  else mret l10nStrings.

(** [block[locale] ?? block[DEFAULT_LOCALE] ?? null]; when [id] has no
    block, [block] is [undefined] and reading [block[locale]] throws. *)
Definition getL10nString (l10nStrings : L10nStrings) (id locale : string)
  : Result (option string) :=
  match l10nStrings !! id with
  | None => Throw TypeError
  | Some block =>
      match block !! locale with
      | Some message => mret (Some message)
      | None =>
          match block !! DEFAULT_LOCALE with
          | Some message => mret (Some message)
          | None => mret None
          end
      end
  end.

Definition injectBanner (l10nStrings : L10nStrings) (doc : Cheerio)
  (locale messageId bannerClass : string) : Result Cheerio :=
  message ← getL10nString l10nStrings messageId locale;
  match message with
  | Some message =>
      if truthy message then
        let banner := notecard bannerClass message in
        mret (prepend_div_body banner doc)
      else mret doc
  | None => mret doc
  end.

(** [bcd?.data?.__compat?.status?.experimental] (or [.deprecated]) used
    as a condition. *)
Definition statusFlag (flag : Status → option bool) (bcd : option Bcd) : bool :=
  match bcd with
  | Some bcd =>
      match data bcd with
      | Some data_ =>
          match __compat data_ with
          | Some compat =>
              match status compat with
              | Some status_ => default false (flag status_)
              | None => false
              end
          | None => false
          end
      | None => false
      end
  | None => false
  end.

(** The secure-context step of [injectBanners]. *)
Definition injectSecure (l10nStrings : L10nStrings) (doc : Cheerio)
  (locale : string) (metadata : Metadata) : Result Cheerio :=
  match security_requirements metadata with
  | Some security =>
      if bool_decide ("secure-context" ∈ security)
      then injectBanner l10nStrings doc locale "SecureContextBanner" "secure"
      else mret doc
  | None => mret doc
  end.

(** The steps of [injectBanners] that are driven by BCD. *)
Definition injectBcd (l10nStrings : L10nStrings) (doc : Cheerio)
  (locale : string) (metadata : Metadata) : Result Cheerio :=
  match browser_compat metadata with
  | Some (BcdString bcdQuery) =>
      if truthy bcdQuery then
        let bcd := packageBCD bcdQuery in
        doc ← (if statusFlag experimental bcd
               then injectBanner l10nStrings doc locale
                      "ExperimentalBanner" "experimental"
               else mret doc);
        if statusFlag deprecated bcd
        then injectBanner l10nStrings doc locale "DeprecatedBanner" "deprecated"
        else mret doc
      else mret doc
  | Some (BcdArray _) => mret doc
  | None => mret doc
  end.

(** Returns the page and the value of the module-level [l10nStrings]. *)
Definition injectBanners (fs : FileSystem) (doc : Cheerio)
  (root_ locale : string) (metadata : Metadata) (l10nStrings : L10nStrings)
  : Result (Cheerio * L10nStrings) :=
  l10nStrings ← initL10nStrings fs root_ l10nStrings;
  doc ← injectSecure l10nStrings doc locale metadata;
  doc ← injectBcd l10nStrings doc locale metadata;
  mret (doc, l10nStrings).
End Banners.

(** ** Vocabulary of the statements *)

Section Vocabulary.
Variable path_join : list string → string.
Variable frontmatter : string → Result DocFrontmatter.

(** [child] holds a readable, parsable [index.md] whose front-matter has
    page-type "guide" and a weight, and [entry] is the entry
    [makeSequence] builds from it. *)
Definition contributes (fs : FileSystem) (parent : string)
  (child : Dirent) (entry : SequenceEntry) : Prop :=
  ∃ contents matter,
    readFileSync fs (path_join [parent; name child; "index.md"]) = Ok contents
    ∧ frontmatter contents = Ok matter
    ∧ matter_page_type matter = Some "guide"
    ∧ matter_weight matter = Some (weight entry)
    ∧ slug entry = matter_slug matter.

(** What one loop iteration adds to [sequence], if anything. *)
Definition childEntry (fs : FileSystem) (parent : string) (child : Dirent)
  : option SequenceEntry :=
  match tryChild path_join frontmatter fs parent child with
  | Ok (Some entry) => Some entry
  | Ok None => None
  | Throw _ => None
  end.
End Vocabulary.

(** Ascending order of weight, ties allowed. *)
Definition weight_le (a b : SequenceEntry) : Prop := weight a ≤ weight b.

(** Strictly ascending order of weight. *)
Definition weight_lt (a b : SequenceEntry) : Prop := weight a < weight b.

(** [c] occurs in [s]. *)
Fixpoint occurs (c : ascii) (s : string) : bool :=
  match s with
  | EmptyString => false
  | String c' s' => Ascii.eqb c' c || occurs c s'
  end.

(** ** A small content tree on which the definitions are run *)

Module Demo.
Definition E (s : string) (w : Z) : SequenceEntry :=
  {| slug := Some s; weight := w |}.

(** Joins the parts with a slash; enough for the paths below. *)
Definition path_join (parts : list string) : string := join "/" parts.

Definition guide (s : option string) (w : option Z) : DocFrontmatter :=
  {| matter_page_type := Some "guide"; matter_weight := w; matter_slug := s |}.

(** A document's text stands for its front-matter. *)
Definition frontmatter (contents : string) : Result DocFrontmatter :=
  if String.eqb contents "intro" then Ok (guide (Some "Guide/Intro") (Some 2))
  else if String.eqb contents "setup" then Ok (guide (Some "Guide/Setup") (Some 1))
  else if String.eqb contents "faq" then Ok (guide (Some "Guide/FAQ") (Some 2))
  else if String.eqb contents "noslug" then Ok (guide None (Some 0))
  else if String.eqb contents "noweight" then Ok (guide (Some "Mixed/Draft") None)
  else Throw ParseError.

Definition dir (n : string) : Dirent := {| name := n; isDirectory := true |}.
Definition file (n : string) : Dirent := {| name := n; isDirectory := false |}.

(** [guide/] is a valid sequence with two equal weights, [mixed/] has a
    child without weight, [bare/] a child without slug, [empty/] has no
    subdirectory. *)
Definition fs : FileSystem := {|
  readdirSync p :=
    if String.eqb p "guide" then Ok [dir "intro"; file "index.md"; dir "setup"; dir "faq"]
    else if String.eqb p "mixed" then Ok [dir "intro"; dir "draft"]
    else if String.eqb p "bare" then Ok [dir "setup"; dir "noslug"]
    else if String.eqb p "empty" then Ok [file "index.md"]
    else Throw SystemError;
  readFileSync p :=
    if String.eqb p "guide/intro/index.md" then Ok "intro"
    else if String.eqb p "guide/setup/index.md" then Ok "setup"
    else if String.eqb p "guide/faq/index.md" then Ok "faq"
    else if String.eqb p "mixed/intro/index.md" then Ok "intro"
    else if String.eqb p "mixed/draft/index.md" then Ok "noweight"
    else if String.eqb p "bare/setup/index.md" then Ok "setup"
    else if String.eqb p "bare/noslug/index.md" then Ok "noslug"
    else Throw SystemError
|}.

(** [fs] with the listings reduced to the subdirectories. *)
Definition fs_dirs : FileSystem := {|
  readdirSync p :=
    match readdirSync fs p with
    | Ok entries => Ok (filter (λ entry : Dirent, isDirectory entry) entries)
    | Throw e => Throw e
    end;
  readFileSync := readFileSync fs
|}.

(** The tree after every file was removed. *)
Definition fs_gone : FileSystem := {|
  readdirSync _ := Throw SystemError;
  readFileSync _ := Throw SystemError
|}.

Definition st0 : BuildState := {| pageSequences := ∅; scanned := [] |}.

(** A page of the guide, and the state after its directory was scanned. *)
Definition fileInfo : FileInfo := {| root := "site"; folder := "guide/intro" |}.

Definition stGuide : BuildState :=
  {| pageSequences :=
       {[ "site/guide/intro/../" :=
            [E "Guide/Setup" 1; E "Guide/Intro" 2; E "Guide/FAQ" 2] ]};
     scanned := ["site/guide/intro/../"] |}.
Definition doc0 : Cheerio := {| body := []; div_body := [] |}.

(** A compatibility record whose status is both experimental and
    deprecated, and a resolver that knows one feature. *)
Definition bothFlags : Bcd :=
  {| data := Some {| __compat := Some {| status :=
       Some {| experimental := Some true; deprecated := Some true |} |} |} |}.

Definition packageBCD (query : string) : option Bcd :=
  if String.eqb query "api.Foo" then Some bothFlags else None.

(** A table with the two BCD banners only, and the full one. *)
Definition l10nBcdOnly : L10nStrings :=
  <["ExperimentalBanner" := {[ "en-US" := "Experimental" ]}]>
    {[ "DeprecatedBanner" := {[ "en-US" := "Deprecated" ]} ]}.

Definition l10nStrings : L10nStrings :=
  <["SecureContextBanner" := {[ "en-US" := "Secure context" ]}]> l10nBcdOnly.

Definition JSON_parse (contents : string) : Result L10nStrings :=
  if String.eqb contents "l10n" then Ok l10nStrings else Throw ParseError.

Definition secureFoo : Metadata :=
  {| security_requirements := Some ["secure-context"];
     browser_compat := Some (BcdString "api.Foo") |}.

(** [path.join] on relative paths: the parts are joined with a slash,
    empty and [.] segments are dropped, [..] removes the segment before
    it, and a trailing slash is kept. *)
Fixpoint resolve (stack segments : list string) : list string :=
  match segments with
  | [] => rev stack
  | segment :: rest =>
      if String.eqb segment EmptyString then resolve stack rest
      else if String.eqb segment "." then resolve stack rest
      else if String.eqb segment ".." then resolve (tail stack) rest
      else resolve (segment :: stack) rest
  end.

Definition path_join_node (parts : list string) : string :=
  let segments := split "/"%char (join "/" parts) in
  let resolved := join "/" (resolve [] segments) in
  match last segments with
  | Some EmptyString => resolved +:+ "/"
  | _ => resolved
  end.

(** A site with the guide and a directory that is not a sequence. *)
Definition fs_site : FileSystem := {|
  readdirSync p :=
    if String.eqb p "site/guide/" then Ok [dir "intro"; file "index.md"; dir "setup"]
    else if String.eqb p "site/mixed/" then Ok [dir "intro"; dir "draft"]
    else Throw SystemError;
  readFileSync p :=
    if String.eqb p "site/guide/intro/index.md" then Ok "intro"
    else if String.eqb p "site/guide/setup/index.md" then Ok "setup"
    else if String.eqb p "site/mixed/intro/index.md" then Ok "intro"
    else if String.eqb p "site/mixed/draft/index.md" then Ok "noweight"
    else Throw SystemError
|}.

Definition guideIntro : FileInfo := {| root := "site"; folder := "guide/intro" |}.
Definition mixedIntro : FileInfo := {| root := "site"; folder := "mixed/intro" |}.
Definition mixedDraft : FileInfo := {| root := "site"; folder := "mixed/draft" |}.

(** The state after another directory was scanned. *)
Definition stOther : BuildState :=
  {| pageSequences := {[ "site/other/" := [E "Other/A" 1; E "Other/B" 3] ]};
     scanned := ["site/other/"] |}.

Definition plain : Metadata :=
  {| security_requirements := Some ["other-requirement"];
     browser_compat := None |}.

Definition secureOnly : Metadata :=
  {| security_requirements := Some ["secure-context"];
     browser_compat := None |}.

Definition unknownQuery : Metadata :=
  {| security_requirements := Some ["secure-context"];
     browser_compat := Some (BcdString "api.Bar") |}.

(** A block whose French string is empty. *)
Definition blockEmptyFr : gmap string string :=
  <["fr" := EmptyString]> {[ "en-US" := "Deprecated" ]}.

Definition l10nEmptyFr : L10nStrings := {[ "DeprecatedBanner" := blockEmptyFr ]}.

Definition secureArray : Metadata :=
  {| security_requirements := Some ["secure-context"];
     browser_compat := Some (BcdArray ["api.Foo"; "api.Bar"]) |}.
End Demo.

(** * Properties *)

(** ** Running the definitions *)

Example getPreviousNextEntries_interior :
  getPreviousNextEntries "b" [Demo.E "a" 1; Demo.E "b" 2; Demo.E "c" 3]
  = {| previous := Some (Demo.E "a" 1); next := Some (Demo.E "c" 3) |}.
Proof. reflexivity. Qed.

Example getPreviousNextEntries_first :
  getPreviousNextEntries "a" [Demo.E "a" 1; Demo.E "b" 2; Demo.E "c" 3]
  = {| previous := None; next := Some (Demo.E "b" 2) |}.
Proof. reflexivity. Qed.

Example getPreviousNextEntries_last :
  getPreviousNextEntries "c" [Demo.E "a" 1; Demo.E "b" 2; Demo.E "c" 3]
  = {| previous := Some (Demo.E "b" 2); next := None |}.
Proof. reflexivity. Qed.

Example sort_stable_run :
  sort compareWeight
    [Demo.E "a" 3; Demo.E "b" 1; Demo.E "c" 3; Demo.E "d" 2; Demo.E "e" 1]
  = [Demo.E "b" 1; Demo.E "e" 1; Demo.E "d" 2; Demo.E "a" 3; Demo.E "c" 3].
Proof. reflexivity. Qed.

Example makeSequence_guide :
  makeSequence Demo.path_join Demo.frontmatter Demo.fs "guide"
  = Ok [Demo.E "Guide/Setup" 1; Demo.E "Guide/Intro" 2; Demo.E "Guide/FAQ" 2].
Proof. reflexivity. Qed.

Example makeSequence_mixed :
  makeSequence Demo.path_join Demo.frontmatter Demo.fs "mixed" = Ok [].
Proof. reflexivity. Qed.

Example makeSequence_bare :
  makeSequence Demo.path_join Demo.frontmatter Demo.fs "bare"
  = Ok [{| slug := None; weight := 0 |}; Demo.E "Guide/Setup" 1].
Proof. reflexivity. Qed.

Example parentSlug_run_nested : parentSlug "Web/Guide/Intro" = "Web/Guide".
Proof. reflexivity. Qed.

Example parentSlug_run_top : parentSlug "Intro" = EmptyString.
Proof. reflexivity. Qed.

Example path_join_node_run :
  Demo.path_join_node ["site"; "guide/intro"; "../"] = "site/guide/"
  ∧ Demo.path_join_node ["site"; "guide/setup"; "../"] = "site/guide/"
  ∧ Demo.path_join_node ["site/guide/"; "intro"; "index.md"]
    = "site/guide/intro/index.md".
Proof. repeat split. Qed.

Example renderButton_run :
  renderButton "en-US" "Web/Guide" "Overview"
  = "<li><a class=" +:+ dq +:+ "button secondary" +:+ dq +:+ "href=" +:+ dq
      +:+ "/en-US/docs/Web/Guide" +:+ dq +:+ "><span class=" +:+ dq
      +:+ "button-wrap" +:+ dq +:+ "> Overview </span></a></li>".
Proof. reflexivity. Qed.

(** ** Navigation resolver *)

Section FindIndex.
Context {A : Type} (p : A → bool).

Lemma findIndex_from_absent l i :
  Forall (λ x, p x = false) l → findIndex_from p l i = -1.
Proof.
  intros H. revert i. induction H as [|x l Hx _ IH]; intros i; simpl.
  - reflexivity.
  - rewrite Hx. apply IH.
Qed.

Lemma findIndex_from_found l i :
  findIndex_from p l i ≠ -1 → 0 ≤ i →
  i ≤ findIndex_from p l i < i + len l.
Proof.
  unfold len. revert i. induction l as [|x l IH]; intros i Hne Hi; simpl in *.
  - congruence.
  - destruct (p x).
    + lia.
    + specialize (IH (i + 1) Hne). lia.
Qed.

Lemma findIndex_range l :
  findIndex p l = -1 ∨ 0 ≤ findIndex p l < len l.
Proof.
  unfold findIndex.
  destruct (decide (findIndex_from p l 0 = -1)) as [?|Hne]; [by left|right].
  apply findIndex_from_found in Hne; lia.
Qed.
End FindIndex.

Lemma slug_is_false s e : slug e ≠ Some s → slug_is s e = false.
Proof.
  unfold slug_is. destruct (slug e) as [s'|]; [|done].
  intros Hne. apply String.eqb_neq. congruence.
Qed.

(** X5. A page that is in no entry of the sequence gets no previous entry,
    and as next entry the first one of the sequence, if there is one: the
    index [-1] passes the test [pageIndex < sequence.length - 1]. *)
Lemma getPreviousNextEntries_absent s sequence :
  Forall (λ e, slug e ≠ Some s) sequence →
  getPreviousNextEntries s sequence
  = {| previous := None; next := head sequence |}.
Proof.
  intros H. unfold getPreviousNextEntries.
  rewrite (findIndex_from_absent (slug_is s) sequence 0
             (Forall_impl _ _ _ H (slug_is_false s))
           : findIndex (slug_is s) sequence = -1).
  destruct sequence as [|e rest]; [reflexivity|].
  unfold len, index. simpl length.
  replace (-1 <? Z.of_nat (S (length rest)) - 1) with true
    by (symmetry; apply Z.ltb_lt; lia).
  reflexivity.
Qed.

(** C1. Evaluates [getPreviousNextEntries("z", [{slug: "a", weight: 1}])]:
    no entry has slug "z", yet the result is not
    [{previous: null, next: null}]: [next] is the first entry of the
    sequence. *)
Theorem getPreviousNextEntries_absent_slug_gets_next :
  Forall (λ e, slug e ≠ Some "z") [Demo.E "a" 1]
  ∧ getPreviousNextEntries "z" [Demo.E "a" 1]
    = {| previous := None; next := Some (Demo.E "a" 1) |}.
Proof.
  split; [|reflexivity].
  repeat constructor. discriminate.
Qed.

(** On the empty sequence both links are null. *)
Lemma getPreviousNextEntries_empty s :
  getPreviousNextEntries s [] = {| previous := None; next := None |}.
Proof. reflexivity. Qed.

(** The two guarded reads [sequence[pageIndex - 1]] and
    [sequence[pageIndex + 1]] are always in range: a link is [None] only
    where the source leaves it [null]. *)
Lemma getPreviousNextEntries_in_range s sequence :
  let pageIndex := findIndex (slug_is s) sequence in
  (0 < pageIndex → is_Some (previous (getPreviousNextEntries s sequence)))
  ∧ (pageIndex < len sequence - 1 →
     is_Some (next (getPreviousNextEntries s sequence))).
Proof.
  intros pageIndex. unfold getPreviousNextEntries. fold pageIndex. simpl.
  pose proof (findIndex_range (slug_is s) sequence) as Hr. fold pageIndex in Hr.
  unfold len in *. split; intros H.
  - replace (0 <? pageIndex) with true by (symmetry; apply Z.ltb_lt; lia).
    unfold index.
    replace (pageIndex - 1 <? 0) with false by (symmetry; apply Z.ltb_ge; lia).
    apply lookup_lt_is_Some. lia.
  - replace (pageIndex <? Z.of_nat (length sequence) - 1) with true
      by (symmetry; apply Z.ltb_lt; lia).
    unfold index.
    replace (pageIndex + 1 <? 0) with false by (symmetry; apply Z.ltb_ge; lia).
    apply lookup_lt_is_Some. lia.
Qed.

(** ** The sort of [makeSequence] *)

Lemma compareWeight_pos a b : (compareWeight a b >? 0) = (weight a >? weight b).
Proof.
  unfold compareWeight.
  destruct (weight a >? weight b) eqn:Hgt; [reflexivity|].
  destruct (weight a <? weight b); reflexivity.
Qed.

Lemma sort_insert_cons_le x y l :
  weight x ≤ weight y → sort_insert compareWeight x (y :: l) = x :: y :: l.
Proof.
  intros H. simpl. rewrite compareWeight_pos.
  replace (weight x >? weight y) with false; [reflexivity|].
  symmetry. rewrite Z.gtb_ltb. apply Z.ltb_ge. lia.
Qed.

Lemma sort_insert_cons_gt x y l :
  weight y < weight x →
  sort_insert compareWeight x (y :: l) = y :: sort_insert compareWeight x l.
Proof.
  intros H. simpl. rewrite compareWeight_pos.
  replace (weight x >? weight y) with true; [reflexivity|].
  symmetry. rewrite Z.gtb_ltb. apply Z.ltb_lt. lia.
Qed.

Local Ltac insert_cases x y :=
  destruct (Z_lt_le_dec (weight y) (weight x));
  [rewrite sort_insert_cons_gt by assumption
  |rewrite sort_insert_cons_le by assumption].

Lemma sort_insert_perm x l : sort_insert compareWeight x l ≡ₚ x :: l.
Proof.
  induction l as [|y l IH]; [reflexivity|].
  insert_cases x y; [|reflexivity].
  rewrite IH. apply Permutation_swap.
Qed.

Lemma sort_perm l : sort compareWeight l ≡ₚ l.
Proof.
  induction l as [|x l IH]; [reflexivity|].
  simpl. rewrite sort_insert_perm. by f_equiv.
Qed.

Lemma sort_insert_sorted x l :
  StronglySorted weight_le l →
  StronglySorted weight_le (sort_insert compareWeight x l).
Proof.
  induction 1 as [|y l Hl IH Hy].
  - simpl. repeat constructor.
  - insert_cases x y.
    + constructor; [exact IH|].
      rewrite sort_insert_perm. constructor; [unfold weight_le; lia|exact Hy].
    + constructor; [by constructor|].
      constructor; [exact l0|].
      eapply Forall_impl; [exact Hy|]. unfold weight_le. intros; lia.
Qed.

Lemma sort_sorted l : StronglySorted weight_le (sort compareWeight l).
Proof.
  induction l as [|x l IH]; simpl.
  - constructor.
  - by apply sort_insert_sorted.
Qed.

(** Stability: the entries of any one weight keep their order. *)
Lemma sort_insert_stable w x l :
  filter (λ e, weight e = w) (sort_insert compareWeight x l)
  = filter (λ e, weight e = w) (x :: l).
Proof.
  induction l as [|y l IH]; [reflexivity|].
  insert_cases x y; [|reflexivity].
  rewrite filter_cons, IH, !filter_cons.
  repeat case_decide; try reflexivity; lia.
Qed.

Lemma sort_stable w l :
  filter (λ e, weight e = w) (sort compareWeight l)
  = filter (λ e, weight e = w) l.
Proof.
  induction l as [|x l IH]; [reflexivity|].
  simpl. rewrite sort_insert_stable, !filter_cons, IH. reflexivity.
Qed.

(** With pairwise distinct weights the order is strict. *)
Lemma sorted_NoDup_strict l :
  StronglySorted weight_le l → NoDup (weight <$> l) →
  StronglySorted weight_lt l.
Proof.
  induction 1 as [|x l Hl IH Hx]; intros Hnd; [constructor|].
  rewrite fmap_cons in Hnd. apply NoDup_cons in Hnd as [Hnotin Hnd].
  constructor; [by apply IH|].
  rewrite Forall_forall in Hx |- *. intros y Hy.
  assert (weight x ≠ weight y).
  { intros Heq. apply Hnotin. rewrite Heq. apply list_elem_of_fmap.
    exists y. split; [reflexivity|exact Hy]. }
  specialize (Hx y Hy). unfold weight_le, weight_lt in *. lia.
Qed.

(** A sorted array is determined by the order it keeps among entries of
    equal weight. *)
Lemma sorted_stable_eq l1 l2 :
  StronglySorted weight_le l1 → StronglySorted weight_le l2 →
  (∀ w, filter (λ e, weight e = w) l1 = filter (λ e, weight e = w) l2) →
  l1 = l2.
Proof.
  intros H1. revert l2. induction H1 as [|a t1 Ht1 IH Ha]; intros l2 H2 Hf.
  - destruct l2 as [|b t2]; [reflexivity|].
    specialize (Hf (weight b)). rewrite filter_cons_True in Hf by reflexivity.
    discriminate.
  - destruct H2 as [|b t2 Ht2 Hb].
    { specialize (Hf (weight a)). rewrite filter_cons_True in Hf by reflexivity.
      discriminate. }
    assert (weight a ≤ weight b) as Hab.
    { pose proof (Hf (weight b)) as Hw.
      assert (b ∈ filter (λ e, weight e = weight b) (a :: t1)) as Hin.
      { rewrite Hw, filter_cons_True by reflexivity. left. }
      apply list_elem_of_filter in Hin as [_ Hin].
      apply elem_of_cons in Hin as [->|Hin]; [lia|].
      rewrite Forall_forall in Ha. by apply Ha. }
    assert (weight b ≤ weight a) as Hba.
    { pose proof (Hf (weight a)) as Hw.
      assert (a ∈ filter (λ e, weight e = weight a) (b :: t2)) as Hin.
      { rewrite <- Hw, filter_cons_True by reflexivity. left. }
      apply list_elem_of_filter in Hin as [_ Hin].
      apply elem_of_cons in Hin as [->|Hin]; [lia|].
      rewrite Forall_forall in Hb. by apply Hb. }
    assert (a = b) as <-.
    { pose proof (Hf (weight a)) as Hw.
      rewrite !filter_cons_True in Hw by lia. congruence. }
    f_equal. apply IH; [exact Ht2|].
    intros w. specialize (Hf w). rewrite !filter_cons in Hf.
    case_decide; congruence.
Qed.

(** X10. Whatever stable sort the engine runs, it returns what [sort]
    returns: an array in ascending order of weight that keeps, for every
    weight, the entries of that weight in the order of [l] is
    [sort compareWeight l]. *)
Lemma stable_sort_unique l l' :
  StronglySorted weight_le l' →
  (∀ w, filter (λ e, weight e = w) l' = filter (λ e, weight e = w) l) →
  l' = sort compareWeight l.
Proof.
  intros Hs Hf. apply sorted_stable_eq; [exact Hs|apply sort_sorted|].
  intros w. by rewrite Hf, sort_stable.
Qed.

(** ** Sequence builder *)

Lemma length_omap_le {A B} (f : A → option B) l :
  (length (omap f l) ≤ length l)%nat.
Proof.
  induction l as [|x l IH]; csimpl; [lia|].
  destruct (f x); csimpl; lia.
Qed.

Lemma length_omap_lt {A B} (f : A → option B) l x :
  x ∈ l → f x = None → (length (omap f l) < length l)%nat.
Proof.
  induction 1 as [x l|x y l _ IH]; intros Hx; csimpl.
  - rewrite Hx. pose proof (length_omap_le f l). lia.
  - specialize (IH Hx). destruct (f y); csimpl; lia.
Qed.

Section SequenceBuilder.
Variable path_join : list string → string.
Variable frontmatter : string → Result DocFrontmatter.

(** The loop collects, in scan order, the entries of the children that
    have one. *)
Lemma foldl_pushChild fs parent children acc :
  foldl (pushChild path_join frontmatter fs parent) acc children
  = (acc ++ omap (childEntry path_join frontmatter fs parent) children)%list.
Proof.
  revert acc. induction children as [|child children IH]; intros acc; csimpl.
  - by rewrite app_nil_r.
  - rewrite IH. unfold pushChild, childEntry.
    destruct (tryChild path_join frontmatter fs parent child) as [[entry|]|e];
      csimpl; [by rewrite <- app_assoc|done|done].
Qed.

Lemma childEntry_contributes fs parent child entry :
  childEntry path_join frontmatter fs parent child = Some entry
  ↔ contributes path_join frontmatter fs parent child entry.
Proof.
  unfold childEntry, tryChild, contributes.
  destruct (readFileSync fs _) as [contents|e]; csimpl.
  2:{ split; [done|]. intros (? & ? & ? & _). done. }
  destruct (frontmatter contents) as [matter|e] eqn:Hfm; csimpl.
  2:{ split; [done|]. intros (? & ? & [= <-] & ? & _). congruence. }
  split.
  - intros H. exists contents, matter.
    case_decide; [|done].
    destruct (matter_weight matter) as [w|]; [|done].
    injection H as <-. done.
  - intros (? & matter' & [= <-] & Hfm' & Hpt & Hw & Hs).
    assert (matter' = matter) as -> by congruence.
    rewrite decide_True by done. rewrite Hw. csimpl.
    destruct entry; simpl in *; by subst.
Qed.

Lemma omap_contributes fs parent children scan :
  Forall2 (contributes path_join frontmatter fs parent) children scan →
  omap (childEntry path_join frontmatter fs parent) children = scan.
Proof.
  induction 1 as [|child entry children scan Hc _ IH]; csimpl; [done|].
  apply childEntry_contributes in Hc. rewrite Hc. csimpl. by rewrite IH.
Qed.

(** When every subdirectory contributes, the result is the sort of the
    entries collected in scan order. *)
Lemma makeSequence_valid fs parent entries scan :
  readdirSync fs parent = Ok entries →
  Forall2 (contributes path_join frontmatter fs parent)
    (filter (λ entry : Dirent, isDirectory entry) entries) scan →
  makeSequence path_join frontmatter fs parent
  = Ok (sort compareWeight scan).
Proof.
  intros Hdir Hall. unfold makeSequence. rewrite Hdir. csimpl.
  rewrite foldl_pushChild, app_nil_l, (omap_contributes _ _ _ _ Hall).
  apply Forall2_length in Hall.
  rewrite decide_True by (unfold len; by rewrite Hall).
  reflexivity.
Qed.

(** C2. If one subdirectory of [parent] has no readable [index.md], or
    one that does not parse, or front-matter whose page-type is not
    "guide" or that has no weight, then [makeSequence] returns the empty
    array, whatever the other children are. *)
Theorem makeSequence_all_or_nothing fs parent entries child :
  readdirSync fs parent = Ok entries →
  child ∈ entries →
  isDirectory child = true →
  (∃ e, readFileSync fs (path_join [parent; name child; "index.md"]) = Throw e)
  ∨ (∃ contents e,
       readFileSync fs (path_join [parent; name child; "index.md"]) = Ok contents
       ∧ frontmatter contents = Throw e)
  ∨ (∃ contents matter,
       readFileSync fs (path_join [parent; name child; "index.md"]) = Ok contents
       ∧ frontmatter contents = Ok matter
       ∧ (matter_page_type matter ≠ Some "guide" ∨ matter_weight matter = None)) →
  makeSequence path_join frontmatter fs parent = Ok [].
Proof.
  intros Hdir Hin Hisdir Hfail.
  assert (childEntry path_join frontmatter fs parent child = None) as Hnone.
  { destruct (childEntry path_join frontmatter fs parent child) as [entry|] eqn:Hc;
      [exfalso|reflexivity].
    apply childEntry_contributes in Hc
      as (contents & matter & Hread & Hfm & Hpt & Hw & _).
    destruct Hfail as [[e He]|[(c & e & Hr & He)|(c & m & Hr & Hm & Hbad)]].
    - congruence.
    - congruence.
    - assert (c = contents) as -> by congruence.
      assert (m = matter) as -> by congruence.
      destruct Hbad; congruence. }
  unfold makeSequence. rewrite Hdir. csimpl.
  rewrite foldl_pushChild, app_nil_l.
  assert (child ∈ filter (λ entry : Dirent, isDirectory entry) entries) as Hin'.
  { apply list_elem_of_filter. split; [by rewrite Hisdir|exact Hin]. }
  pose proof (length_omap_lt _ _ _ Hin' Hnone) as Hlt.
  rewrite decide_False by (unfold len; lia).
  reflexivity.
Qed.

(** C5. If every subdirectory of [parent] holds a parsable guide page
    with a weight ([scan] lists their entries in scan order) and the
    weights are pairwise distinct, [makeSequence] returns an array that
    has exactly these entries, one per child, in strictly ascending order
    of weight. *)
Theorem makeSequence_sorted_by_weight fs parent entries scan :
  readdirSync fs parent = Ok entries →
  Forall2 (contributes path_join frontmatter fs parent)
    (filter (λ entry : Dirent, isDirectory entry) entries) scan →
  NoDup (weight <$> scan) →
  ∃ sequence,
    makeSequence path_join frontmatter fs parent = Ok sequence
    ∧ sequence ≡ₚ scan
    ∧ StronglySorted weight_lt sequence.
Proof.
  intros Hdir Hall Hnd. exists (sort compareWeight scan).
  split; [by eapply makeSequence_valid|].
  split; [apply sort_perm|].
  apply sorted_NoDup_strict; [apply sort_sorted|].
  by rewrite sort_perm.
Qed.

(** C6. If every subdirectory of [parent] contributes an entry ([scan]
    lists them in scan order), the array [makeSequence] returns is in
    ascending order of weight and, for every weight, holds the entries of
    that weight in the order in which the scan met them. *)
Theorem makeSequence_sort_is_stable fs parent entries scan :
  readdirSync fs parent = Ok entries →
  Forall2 (contributes path_join frontmatter fs parent)
    (filter (λ entry : Dirent, isDirectory entry) entries) scan →
  ∃ sequence,
    makeSequence path_join frontmatter fs parent = Ok sequence
    ∧ StronglySorted weight_le sequence
    ∧ ∀ w, filter (λ e, weight e = w) sequence = filter (λ e, weight e = w) scan.
Proof.
  intros Hdir Hall. exists (sort compareWeight scan).
  split; [by eapply makeSequence_valid|].
  split; [apply sort_sorted|].
  intros w. apply sort_stable.
Qed.

(** C9. A child whose front-matter has page-type "guide" and a weight but
    no slug pushes the entry [{slug: undefined, weight}]; when the other
    subdirectories contribute too, the sequence is valid (one entry per
    subdirectory) and this entry is in the array returned. *)
Theorem makeSequence_keeps_entry_without_slug
    fs parent entries scan child contents matter w :
  readdirSync fs parent = Ok entries →
  Forall2 (contributes path_join frontmatter fs parent)
    (filter (λ entry : Dirent, isDirectory entry) entries) scan →
  child ∈ entries →
  isDirectory child = true →
  readFileSync fs (path_join [parent; name child; "index.md"]) = Ok contents →
  frontmatter contents = Ok matter →
  matter_page_type matter = Some "guide" →
  matter_weight matter = Some w →
  matter_slug matter = None →
  tryChild path_join frontmatter fs parent child
  = Ok (Some {| slug := None; weight := w |})
  ∧ ∃ sequence,
      makeSequence path_join frontmatter fs parent = Ok sequence
      ∧ {| slug := None; weight := w |} ∈ sequence
      ∧ length sequence
        = length (filter (λ entry : Dirent, isDirectory entry) entries).
Proof.
  intros Hdir Hall Hin Hisdir Hread Hfm Hpt Hw Hs.
  assert (tryChild path_join frontmatter fs parent child
          = Ok (Some {| slug := None; weight := w |})) as Htry.
  { unfold tryChild. rewrite Hread. csimpl. rewrite Hfm. csimpl.
    rewrite decide_True by done. by rewrite Hw, Hs. }
  split; [exact Htry|].
  exists (sort compareWeight scan).
  split; [by eapply makeSequence_valid|].
  split.
  - rewrite sort_perm.
    rewrite <- (omap_contributes _ _ _ _ Hall).
    apply list_elem_of_omap. exists child. split.
    + apply list_elem_of_filter. split; [by rewrite Hisdir|exact Hin].
    + unfold childEntry. by rewrite Htry.
  - rewrite sort_perm. symmetry. by eapply Forall2_length.
Qed.
End SequenceBuilder.

(** The theorems above at the demo tree. *)

Local Ltac demo_contributes :=
  match goal with
  | |- Forall2 _ ?children _ =>
      let children' := eval vm_compute in children in
      change children with children'
  end;
  repeat (constructor; [eexists _, _; repeat split; reflexivity|]);
  constructor.

Lemma makeSequence_all_or_nothing_witness :
  makeSequence Demo.path_join Demo.frontmatter Demo.fs "mixed" = Ok [].
Proof.
  apply (makeSequence_all_or_nothing Demo.path_join Demo.frontmatter Demo.fs
           "mixed" [Demo.dir "intro"; Demo.dir "draft"] (Demo.dir "draft")).
  - reflexivity.
  - apply list_elem_of_further, list_elem_of_here.
  - reflexivity.
  - right; right.
    exists "noweight", (Demo.guide (Some "Mixed/Draft") None).
    split; [reflexivity|]. split; [reflexivity|]. right; reflexivity.
Defined.

Lemma makeSequence_sorted_by_weight_witness :
  ∃ sequence,
    makeSequence Demo.path_join Demo.frontmatter Demo.fs "bare" = Ok sequence
    ∧ sequence ≡ₚ [Demo.E "Guide/Setup" 1; {| slug := None; weight := 0 |}]
    ∧ StronglySorted weight_lt sequence.
Proof.
  apply (makeSequence_sorted_by_weight Demo.path_join Demo.frontmatter Demo.fs
           "bare" [Demo.dir "setup"; Demo.dir "noslug"]).
  - reflexivity.
  - demo_contributes.
  - apply NoDup_cons. split; [|apply NoDup_singleton].
    intros H. apply list_elem_of_singleton in H. discriminate.
Defined.

Lemma makeSequence_sort_is_stable_witness :
  ∃ sequence,
    makeSequence Demo.path_join Demo.frontmatter Demo.fs "guide" = Ok sequence
    ∧ StronglySorted weight_le sequence
    ∧ ∀ w, filter (λ e, weight e = w) sequence
           = filter (λ e, weight e = w)
               [Demo.E "Guide/Intro" 2; Demo.E "Guide/Setup" 1; Demo.E "Guide/FAQ" 2].
Proof.
  apply (makeSequence_sort_is_stable Demo.path_join Demo.frontmatter Demo.fs
           "guide"
           [Demo.dir "intro"; Demo.file "index.md"; Demo.dir "setup"; Demo.dir "faq"]).
  - reflexivity.
  - demo_contributes.
Defined.

Lemma makeSequence_keeps_entry_without_slug_witness :
  tryChild Demo.path_join Demo.frontmatter Demo.fs "bare" (Demo.dir "noslug")
  = Ok (Some {| slug := None; weight := 0 |})
  ∧ ∃ sequence,
      makeSequence Demo.path_join Demo.frontmatter Demo.fs "bare" = Ok sequence
      ∧ {| slug := None; weight := 0 |} ∈ sequence
      ∧ length sequence = 2%nat.
Proof.
  apply (makeSequence_keeps_entry_without_slug Demo.path_join Demo.frontmatter
           Demo.fs "bare" [Demo.dir "setup"; Demo.dir "noslug"]
           [Demo.E "Guide/Setup" 1; {| slug := None; weight := 0 |}]
           (Demo.dir "noslug") "noslug" (Demo.guide None (Some 0)) 0).
  - reflexivity.
  - demo_contributes.
  - apply list_elem_of_further, list_elem_of_here.
  - reflexivity.
  - reflexivity.
  - reflexivity.
  - reflexivity.
  - reflexivity.
  - reflexivity.
Defined.

(** ** Sequence cache *)

Section Cache.
Variable path_join : list string → string.
Variable frontmatter : string → Result DocFrontmatter.

(** A key that is present is served from the cache: the file system is
    not read and the state is left as it is. *)
Lemma cachedSequence_hit fs parent st sequence :
  pageSequences st !! parent = Some sequence →
  cachedSequence path_join frontmatter fs parent st = Ok (sequence, st).
Proof. intros H. unfold cachedSequence. by rewrite H. Qed.

(** A key that is absent is computed by one call of [makeSequence] and
    stored. *)
Lemma cachedSequence_miss fs parent st sequence st1 :
  pageSequences st !! parent = None →
  cachedSequence path_join frontmatter fs parent st = Ok (sequence, st1) →
  makeSequence path_join frontmatter fs parent = Ok sequence
  ∧ st1 = {| pageSequences := <[parent := sequence]> (pageSequences st);
             scanned := parent :: scanned st |}.
Proof.
  intros Hnone. unfold cachedSequence. rewrite Hnone.
  destruct (makeSequence path_join frontmatter fs parent) as [s|e]; csimpl.
  - intros [= <- <-]. done.
  - discriminate.
Qed.

(** After a call that returned, the key is present, with the sequence
    returned. *)
Lemma cachedSequence_stores fs parent st sequence st1 :
  cachedSequence path_join frontmatter fs parent st = Ok (sequence, st1) →
  pageSequences st1 !! parent = Some sequence.
Proof.
  intros H. destruct (pageSequences st !! parent) as [cached|] eqn:Hlook.
  - rewrite (cachedSequence_hit fs _ _ _ Hlook) in H.
    injection H as <- <-. exact Hlook.
  - apply (cachedSequence_miss _ _ _ _ _ Hlook) in H as [_ ->].
    simpl. apply lookup_insert_eq.
Qed.

(** C3. After a first resolution of [parent] that returned [sequence], a
    second resolution returns the same sequence and leaves the state,
    and so the log of scans, as it is, whatever the file system has
    become and whether [sequence] is empty or not. The first resolution
    scanned once if the key was absent and not at all if it was
    present. *)
Theorem cachedSequence_idempotent fs fs' parent st sequence st1 :
  cachedSequence path_join frontmatter fs parent st = Ok (sequence, st1) →
  cachedSequence path_join frontmatter fs' parent st1 = Ok (sequence, st1)
  ∧ (pageSequences st !! parent = None → scanned st1 = parent :: scanned st)
  ∧ (is_Some (pageSequences st !! parent) →
     st1 = st ∧ pageSequences st !! parent = Some sequence).
Proof.
  intros H. split; [|split].
  - apply cachedSequence_hit. by eapply cachedSequence_stores.
  - intros Hnone. by apply (cachedSequence_miss _ _ _ _ _ Hnone) in H as [_ ->].
  - intros [cached Hlook].
    rewrite (cachedSequence_hit fs _ _ _ Hlook) in H.
    injection H as <- <-. done.
Qed.

(** The same for the whole pass: a second page of the same parent
    directory changes nothing in the state. *)
Lemma injectPreviousNext_reuses_cache
    fs fs' doc doc' locale locale' fileInfo fileInfo' slug1 slug2 st st1 out :
  path_join [root fileInfo'; folder fileInfo'; "../"]
  = path_join [root fileInfo; folder fileInfo; "../"] →
  injectPreviousNext path_join frontmatter fs doc locale fileInfo slug1 st
  = Ok (out, st1) →
  ∃ out',
    injectPreviousNext path_join frontmatter fs' doc' locale' fileInfo' slug2 st1
    = Ok (out', st1).
Proof.
  intros Hparent. unfold injectPreviousNext. rewrite Hparent.
  destruct (cachedSequence path_join frontmatter fs _ st)
    as [[sequence st1']|e] eqn:Hfirst; csimpl; [|discriminate].
  intros [= _ ->].
  rewrite (cachedSequence_hit fs' _ _ _ (cachedSequence_stores _ _ _ _ _ Hfirst)).
  csimpl. eauto.
Qed.
End Cache.

Lemma cachedSequence_idempotent_witness :
  cachedSequence Demo.path_join Demo.frontmatter Demo.fs_gone "mixed"
    {| pageSequences := {[ "mixed" := [] ]}; scanned := ["mixed"] |}
  = Ok ([], {| pageSequences := {[ "mixed" := [] ]}; scanned := ["mixed"] |})
  ∧ (pageSequences Demo.st0 !! "mixed" = None →
     scanned {| pageSequences := {[ "mixed" := [] ]}; scanned := ["mixed"] |}
     = "mixed" :: scanned Demo.st0)
  ∧ (is_Some (pageSequences Demo.st0 !! "mixed") →
     {| pageSequences := {[ "mixed" := [] ]}; scanned := ["mixed"] |} = Demo.st0
     ∧ pageSequences Demo.st0 !! "mixed" = Some []).
Proof.
  apply (cachedSequence_idempotent Demo.path_join Demo.frontmatter
           Demo.fs Demo.fs_gone "mixed" Demo.st0).
  unfold cachedSequence. simpl pageSequences. rewrite lookup_empty.
  change (makeSequence Demo.path_join Demo.frontmatter Demo.fs "mixed")
    with (Ok (@nil SequenceEntry)).
  csimpl. rewrite insert_empty. reflexivity.
Defined.

(** ** Banners *)

Example injectBanners_run :
  injectBanners Demo.path_join Demo.JSON_parse "en-US" Demo.packageBCD
    Demo.fs Demo.doc0 "root" "fr" Demo.secureFoo Demo.l10nStrings
  = Ok ({| body := [];
           div_body := [notecard "deprecated" "Deprecated";
                        notecard "experimental" "Experimental";
                        notecard "secure" "Secure context"] |},
        Demo.l10nStrings).
Proof. vm_compute. reflexivity. Qed.

Section BannerProps.
Variable path_join : list string → string.
Variable JSON_parse : string → Result L10nStrings.
Variable DEFAULT_LOCALE : string.


(** A call of [injectBanner] that returns adds nothing or one notecard
    of its class. *)
Lemma injectBanner_adds (l10nStrings : L10nStrings) doc locale messageId
    bannerClass doc' :
  injectBanner DEFAULT_LOCALE l10nStrings doc locale messageId bannerClass
  = Ok doc' →
  doc' = doc
  ∨ ∃ message, doc' = prepend_div_body (notecard bannerClass message) doc.
Proof.
  unfold injectBanner.
  destruct (getL10nString _ _ _ _) as [[message|]|e]; csimpl;
    [|intros [= <-]; by left|discriminate].
  destruct (truthy message); intros [= <-]; [right; eauto|by left].
Qed.


(** An identifier without a block makes the lookup, and with it
    [injectBanner], throw. *)
Lemma injectBanner_throws_without_block (l10nStrings : L10nStrings) doc
    locale messageId bannerClass :
  l10nStrings !! messageId = None →
  injectBanner DEFAULT_LOCALE l10nStrings doc locale messageId bannerClass
  = Throw TypeError.
Proof.
  intros H. unfold injectBanner, getL10nString. by rewrite H.
Qed.
End BannerProps.



(** The three notecards differ by their class, whatever the message. *)
Lemma notecard_secure_not_bcd message message' :
  notecard "secure" message ≠ notecard "experimental" message'
  ∧ notecard "secure" message ≠ notecard "deprecated" message'.
Proof. split; intros H; vm_compute in H; discriminate. Qed.

Section SelectBanners.
Variable path_join : list string → string.
Variable JSON_parse : string → Result L10nStrings.
Variable DEFAULT_LOCALE : string.

(** The secure-context step adds nothing or the secure-context
    notecard. *)
Lemma injectSecure_adds (l10nStrings : L10nStrings) doc locale metadata doc' :
  injectSecure DEFAULT_LOCALE l10nStrings doc locale metadata = Ok doc' →
  doc' = doc ∨ ∃ message, doc' = prepend_div_body (notecard "secure" message) doc.
Proof.
  unfold injectSecure.
  destruct (security_requirements metadata) as [security|];
    [|intros [= <-]; by left].
  case_bool_decide; [apply injectBanner_adds|intros [= <-]; by left].
Qed.

(** C7. When [metadata["browser-compat"]] is an array, the result of
    [injectBanners] does not depend on the compatibility resolver and is
    the result for the same metadata without a "browser-compat" key, so
    the secure-context banner is decided as usual; what a returning call
    has added to [div#_body] holds no experimental and no deprecated
    notecard, and [<body>] is untouched. *)
Theorem injectBanners_array_skips_bcd_banners
    (packageBCD packageBCD' : string → option Bcd) fs doc root_ locale
    metadata (l10nStrings : L10nStrings) queries :
  browser_compat metadata = Some (BcdArray queries) →
  injectBanners path_join JSON_parse DEFAULT_LOCALE packageBCD
    fs doc root_ locale metadata l10nStrings
  = injectBanners path_join JSON_parse DEFAULT_LOCALE packageBCD'
      fs doc root_ locale metadata l10nStrings
  ∧ injectBanners path_join JSON_parse DEFAULT_LOCALE packageBCD
      fs doc root_ locale metadata l10nStrings
    = injectBanners path_join JSON_parse DEFAULT_LOCALE packageBCD
        fs doc root_ locale
        {| security_requirements := security_requirements metadata;
           browser_compat := None |}
        l10nStrings
  ∧ ∀ doc' l10nStrings',
      injectBanners path_join JSON_parse DEFAULT_LOCALE packageBCD
        fs doc root_ locale metadata l10nStrings
      = Ok (doc', l10nStrings') →
      body doc' = body doc
      ∧ ∃ added,
          div_body doc' = (added ++ div_body doc)%list
          ∧ ∀ message,
              (notecard "experimental" message ∉ added)
              ∧ (notecard "deprecated" message ∉ added).
Proof.
  intros Harray.
  assert (∀ pk l10n d,
            injectBcd DEFAULT_LOCALE pk l10n d locale metadata = Ok d) as Hskip.
  { intros pk l10n d. unfold injectBcd. by rewrite Harray. }
  split; [|split].
  - unfold injectBanners.
    destruct (initL10nStrings _ _ _ _ _) as [l10n|e]; csimpl; [|done].
    destruct (injectSecure _ _ _ _ _) as [doc1|e]; csimpl; [|done].
    by rewrite !Hskip.
  - unfold injectBanners.
    destruct (initL10nStrings _ _ _ _ _) as [l10n|e]; csimpl; [|done].
    unfold injectSecure at 2. simpl security_requirements.
    fold (injectSecure DEFAULT_LOCALE l10n doc locale metadata).
    destruct (injectSecure _ _ _ _ _) as [doc1|e]; csimpl; [|done].
    by rewrite Hskip.
  - intros doc' l10n'. unfold injectBanners.
    destruct (initL10nStrings _ _ _ _ _) as [l10n|e]; csimpl; [|done].
    destruct (injectSecure _ _ _ _ _) as [doc1|e] eqn:Hsecure; csimpl; [|done].
    rewrite Hskip. csimpl. intros [= <- <-].
    apply injectSecure_adds in Hsecure as [->|[message ->]].
    + split; [done|]. exists []. split; [done|].
      intros message. split; apply not_elem_of_nil.
    + split; [done|]. exists [notecard "secure" message]. split; [done|].
      intros message'.
      destruct (notecard_secure_not_bcd message message') as [He Hd].
      split; intros Hin; apply list_elem_of_singleton in Hin; congruence.
Qed.

End SelectBanners.

Lemma injectBanners_array_skips_bcd_banners_witness :
  injectBanners Demo.path_join Demo.JSON_parse "en-US" Demo.packageBCD
    Demo.fs Demo.doc0 "root" "fr" Demo.secureArray Demo.l10nStrings
  = Ok ({| body := []; div_body := [notecard "secure" "Secure context"] |},
        Demo.l10nStrings)
  ∧ ∀ doc' l10nStrings',
      injectBanners Demo.path_join Demo.JSON_parse "en-US" Demo.packageBCD
        Demo.fs Demo.doc0 "root" "fr" Demo.secureArray Demo.l10nStrings
      = Ok (doc', l10nStrings') →
      body doc' = []
      ∧ ∃ added,
          div_body doc' = (added ++ [])%list
          ∧ ∀ message,
              (notecard "experimental" message ∉ added)
              ∧ (notecard "deprecated" message ∉ added).
Proof.
  split; [vm_compute; reflexivity|].
  apply (injectBanners_array_skips_bcd_banners Demo.path_join Demo.JSON_parse
           "en-US" Demo.packageBCD Demo.packageBCD Demo.fs Demo.doc0 "root" "fr"
           Demo.secureArray Demo.l10nStrings ["api.Foo"; "api.Bar"]).
  reflexivity.
Defined.



(** ** Navigation buttons *)

Lemma split_nonempty sep s : split sep s ≠ [].
Proof.
  destruct s as [|c s]; simpl; [done|].
  destruct (Ascii.eqb c sep); [done|].
  destruct (split sep s); done.
Qed.

(** A segment without separator is its own split. *)
Lemma split_segment sep s : occurs sep s = false → split sep s = [s].
Proof.
  induction s as [|c s IH]; simpl; [done|].
  intros H. apply orb_false_iff in H as [Hc Hs].
  rewrite Hc, (IH Hs). reflexivity.
Qed.

(** Splitting at a separator splits both sides. *)
Lemma split_app sep p s :
  split sep (p +:+ String sep s) = (split sep p ++ split sep s)%list.
Proof.
  induction p as [|c p IH]; simpl.
  - by rewrite Ascii.eqb_refl.
  - rewrite IH. destruct (Ascii.eqb c sep); [done|].
    pose proof (split_nonempty sep p).
    destruct (split sep p); done.
Qed.

(** Joining the segments with the separator gives the string back. *)
Lemma join_split sep s : join (String sep EmptyString) (split sep s) = s.
Proof.
  induction s as [|c s IH]; [done|].
  simpl split. pose proof (split_nonempty sep s) as Hne.
  destruct (Ascii.eqb_spec c sep) as [->|_].
  - destruct (split sep s) as [|seg segs]; [done|].
    change (join (String sep EmptyString) (EmptyString :: seg :: segs))
      with (String sep (join (String sep EmptyString) (seg :: segs))).
    by rewrite IH.
  - destruct (split sep s) as [|seg segs]; [done|].
    rewrite <- IH. destruct segs; reflexivity.
Qed.

Lemma slice_0_m1_snoc {A} (l : list A) x : slice_0_m1 (l ++ [x]) = l.
Proof.
  unfold slice_0_m1. rewrite length_app. simpl.
  replace (length l + 1 - 1)%nat with (length l) by lia.
  apply take_app_length.
Qed.

(** The parent slug is the slug without its last segment and the slash
    before it. *)
Lemma parentSlug_nested prefix segment :
  occurs "/" segment = false →
  parentSlug (prefix +:+ "/" +:+ segment) = prefix.
Proof.
  intros H. unfold parentSlug.
  change (prefix +:+ "/" +:+ segment) with (prefix +:+ String "/" segment).
  rewrite split_app, (split_segment _ _ H), slice_0_m1_snoc.
  apply join_split.
Qed.

(** A slug of one segment has the empty parent slug. *)
Lemma parentSlug_single segment :
  occurs "/" segment = false → parentSlug segment = EmptyString.
Proof.
  intros H. unfold parentSlug. by rewrite (split_segment _ _ H).
Qed.

Lemma append_empty_r s : s +:+ EmptyString = s.
Proof.
  induction s as [|c s IH]; [done|].
  change (String c (s +:+ EmptyString) = String c s). by rewrite IH.
Qed.

Lemma append_assoc_r a b c : (a +:+ b) +:+ c = a +:+ b +:+ c.
Proof.
  induction a as [|x a IH]; [done|].
  change (String x ((a +:+ b) +:+ c) = String x (a +:+ b +:+ c)).
  by rewrite IH.
Qed.

(** The markup of one button, written out. *)
Lemma renderButton_markup locale target label :
  renderButton locale target label
  = "<li><a class=" +:+ dq +:+ "button secondary" +:+ dq
      +:+ "href=" +:+ dq +:+ "/" +:+ locale +:+ "/docs/" +:+ target +:+ dq
      +:+ "><span class=" +:+ dq +:+ "button-wrap" +:+ dq +:+ "> " +:+ label
      +:+ " </span></a></li>".
Proof.
  unfold renderButton. cbv zeta.
  change (("<li><a class=" +:+ dq +:+ "button secondary" +:+ dq)
          +:+ "href=" +:+ dq +:+ "/" +:+ locale +:+ "/docs/" +:+ target
          +:+ dq +:+ ">")
    with ("<li><a class=" +:+ dq +:+ "button secondary" +:+ dq
          +:+ "href=" +:+ dq +:+ "/"
          +:+ (locale +:+ "/docs/" +:+ target +:+ dq +:+ ">")).
  change (("<li><a class=" +:+ dq +:+ "button secondary" +:+ dq
           +:+ "href=" +:+ dq +:+ "/"
           +:+ (locale +:+ "/docs/" +:+ target +:+ dq +:+ ">"))
          +:+ "<span class=" +:+ dq +:+ "button-wrap" +:+ dq +:+ "> " +:+ label
          +:+ " </span></a></li>")
    with ("<li><a class=" +:+ dq +:+ "button secondary" +:+ dq
          +:+ "href=" +:+ dq +:+ "/"
          +:+ ((locale +:+ "/docs/" +:+ (target +:+ dq +:+ ">"))
               +:+ "<span class=" +:+ dq +:+ "button-wrap" +:+ dq +:+ "> "
               +:+ label +:+ " </span></a></li>")).
  rewrite append_assoc_r.
  change (("/docs/" +:+ (target +:+ dq +:+ ">"))
          +:+ "<span class=" +:+ dq +:+ "button-wrap" +:+ dq +:+ "> " +:+ label
          +:+ " </span></a></li>")
    with ("/docs/"
          +:+ ((target +:+ dq +:+ ">")
               +:+ "<span class=" +:+ dq +:+ "button-wrap" +:+ dq +:+ "> "
               +:+ label +:+ " </span></a></li>")).
  rewrite append_assoc_r.
  reflexivity.
Qed.

(** C10. With [previous] and [next] both null, [renderButtons] returns
    the page as it is. With one of them set, it prepends to [<body>] one
    [ul.prev-next] that holds the Previous button if [previous] is set,
    then the Overview button, then the Next button if [next] is set, and
    leaves [div#_body] alone. Each button is the [li] written out below:
    a link to [/locale/docs/target] with its label; the target of the
    Overview button is the parent slug. The parent slug is the slug
    without its last segment: [prefix] for [prefix/segment], empty for a
    slug of one segment. *)
Theorem renderButtons_overview doc locale slug_ pnEntries :
  let li (target label : string) : string :=
    "<li><a class=" +:+ dq +:+ "button secondary" +:+ dq
      +:+ "href=" +:+ dq +:+ "/" +:+ locale +:+ "/docs/" +:+ target +:+ dq
      +:+ "><span class=" +:+ dq +:+ "button-wrap" +:+ dq +:+ "> " +:+ label
      +:+ " </span></a></li>" in
  (previous pnEntries = None → next pnEntries = None →
   renderButtons doc locale slug_ pnEntries = doc)
  ∧ (is_Some (previous pnEntries) ∨ is_Some (next pnEntries) →
     ∃ before after,
       renderButtons doc locale slug_ pnEntries
       = {| body :=
              ((((("<ul class=" +:+ dq +:+ "prev-next" +:+ dq +:+ ">") +:+ before)
                   +:+ li (parentSlug slug_) "Overview")
                  +:+ after) +:+ "</ul>")
              :: body doc;
            div_body := div_body doc |}
       ∧ before = match previous pnEntries with
                  | Some p => li (interpolate (slug p)) "Previous"
                  | None => EmptyString
                  end
       ∧ after = match next pnEntries with
                 | Some n => li (interpolate (slug n)) "Next"
                 | None => EmptyString
                 end)
  ∧ (∀ prefix segment,
       occurs "/" segment = false → slug_ = prefix +:+ "/" +:+ segment →
       parentSlug slug_ = prefix)
  ∧ (occurs "/" slug_ = false → parentSlug slug_ = EmptyString).
Proof.
  intros li. split; [|split; [|split]].
  - intros Hp Hn. unfold renderButtons. by rewrite Hp, Hn.
  - intros Hsome. eexists _, _. split; [|split; reflexivity].
    unfold renderButtons, prepend_body, li.
    destruct (previous pnEntries) as [p|], (next pnEntries) as [n|].
    + by rewrite !renderButton_markup.
    + by rewrite !renderButton_markup, append_empty_r.
    + by rewrite !renderButton_markup.
    + destruct Hsome as [[? [=]]|[? [=]]].
  - intros prefix segment Hseg ->. by apply parentSlug_nested.
  - apply parentSlug_single.
Qed.

Lemma renderButtons_overview_witness :
  renderButtons Demo.doc0 "en-US" "Guide/Setup"
    {| previous := None; next := None |} = Demo.doc0
  ∧ renderButtons Demo.doc0 "en-US" "Guide/Setup"
      {| previous := None; next := Some (Demo.E "Guide/Intro" 2) |}
    = {| body :=
           ["<ul class=" +:+ dq +:+ "prev-next" +:+ dq +:+ ">"
            +:+ "<li><a class=" +:+ dq +:+ "button secondary" +:+ dq
            +:+ "href=" +:+ dq +:+ "/en-US/docs/Guide" +:+ dq
            +:+ "><span class=" +:+ dq +:+ "button-wrap" +:+ dq
            +:+ "> Overview </span></a></li>"
            +:+ "<li><a class=" +:+ dq +:+ "button secondary" +:+ dq
            +:+ "href=" +:+ dq +:+ "/en-US/docs/Guide/Intro" +:+ dq
            +:+ "><span class=" +:+ dq +:+ "button-wrap" +:+ dq
            +:+ "> Next </span></a></li>"
            +:+ "</ul>"];
         div_body := [] |}
  ∧ parentSlug "Guide/Setup" = "Guide".
Proof.
  split; [|split].
  - apply (renderButtons_overview Demo.doc0 "en-US" "Guide/Setup"
             {| previous := None; next := None |}); reflexivity.
  - destruct (renderButtons_overview Demo.doc0 "en-US" "Guide/Setup"
                {| previous := None; next := Some (Demo.E "Guide/Intro" 2) |})
      as (_ & H & _).
    destruct H as (before & after & -> & -> & ->); [right; by eexists|].
    reflexivity.
  - apply (renderButtons_overview Demo.doc0 "en-US" "Guide/Setup"
             {| previous := None; next := None |}) with (segment := "Setup");
      reflexivity.
Defined.

(** * Further properties *)

(** ** Navigation resolver: the page is in the sequence *)

Lemma findIndex_from_app_found {A} (p : A → bool) before e after i :
  Forall (λ x, p x = false) before → p e = true →
  findIndex_from p (before ++ e :: after) i = i + len before.
Proof.
  intros H He. revert i. unfold len.
  induction H as [|x l Hx _ IH]; intros i; simpl.
  - rewrite He. lia.
  - rewrite Hx, IH. lia.
Qed.

Lemma slug_is_true s e : slug e = Some s → slug_is s e = true.
Proof. unfold slug_is. intros ->. apply String.eqb_refl. Qed.

(** The page found after [before] gets the last entry of [before] and the
    first entry of [after]. *)
Lemma getPreviousNextEntries_split s before e after :
  Forall (λ e', slug e' ≠ Some s) before → slug e = Some s →
  getPreviousNextEntries s (before ++ e :: after)
  = {| previous := last before; next := head after |}.
Proof.
  intros Hbefore He. unfold getPreviousNextEntries, findIndex.
  rewrite (findIndex_from_app_found (slug_is s) before e after 0
             (Forall_impl _ _ _ Hbefore (slug_is_false s)) (slug_is_true s e He)).
  unfold len, index. rewrite length_app. simpl length. f_equal.
  - destruct before as [|x before] using rev_ind; [reflexivity|].
    rewrite length_app. simpl length.
    replace (0 <? 0 + Z.of_nat (length before + 1)) with true
      by (symmetry; apply Z.ltb_lt; lia).
    replace (0 + Z.of_nat (length before + 1) - 1 <? 0) with false
      by (symmetry; apply Z.ltb_ge; lia).
    replace (Z.to_nat (0 + Z.of_nat (length before + 1) - 1))
      with (length before) by lia.
    rewrite last_snoc, <- app_assoc. simpl.
    by apply list_lookup_middle.
  - destruct after as [|y after]; simpl length.
    + replace (0 + Z.of_nat (length before) <? Z.of_nat (length before + 1) - 1)
        with false by (symmetry; apply Z.ltb_ge; lia).
      reflexivity.
    + replace (0 + Z.of_nat (length before)
               <? Z.of_nat (length before + S (S (length after))) - 1)
        with true by (symmetry; apply Z.ltb_lt; lia).
      replace (0 + Z.of_nat (length before) + 1 <? 0) with false
        by (symmetry; apply Z.ltb_ge; lia).
      replace (Z.to_nat (0 + Z.of_nat (length before) + 1))
        with (S (length before)) by lia.
      change (before ++ e :: y :: after)%list
        with (before ++ [e] ++ y :: after)%list.
      rewrite app_assoc. simpl head.
      apply list_lookup_middle. rewrite length_app. simpl. lia.
Qed.

(** X1. When the entry at index [i] is the first one with the page's slug,
    [previous] is the entry at [i - 1], or null for [i = 0], and [next] is
    the entry at [i + 1], or null for the last index. *)
Theorem getPreviousNextEntries_at_index s sequence i e :
  sequence !! i = Some e →
  slug e = Some s →
  (∀ j e', (j < i)%nat → sequence !! j = Some e' → slug e' ≠ Some s) →
  getPreviousNextEntries s sequence
  = {| previous := match i with O => None | S j => sequence !! j end;
       next := sequence !! S i |}.
Proof.
  intros Hi He Hfirst.
  rewrite <- (take_drop_middle _ _ _ Hi) at 1.
  rewrite getPreviousNextEntries_split; [|
    apply Forall_forall; intros e' Hin;
    apply elem_of_take in Hin as (j & Hj & Hlt); by eapply Hfirst |exact He].
  f_equal.
  - rewrite last_lookup, length_take.
    apply lookup_lt_Some in Hi as Hlt.
    rewrite Nat.min_l by lia.
    destruct i as [|j]; [by destruct sequence|].
    simpl. apply lookup_take_lt. lia.
  - rewrite head_lookup, lookup_drop. f_equal. lia.
Qed.

Lemma getPreviousNextEntries_at_index_witness :
  getPreviousNextEntries "b" [Demo.E "a" 1; Demo.E "b" 2; Demo.E "c" 3]
  = {| previous := Some (Demo.E "a" 1); next := Some (Demo.E "c" 3) |}.
Proof.
  apply (getPreviousNextEntries_at_index "b"
           [Demo.E "a" 1; Demo.E "b" 2; Demo.E "c" 3] 1 (Demo.E "b" 2)).
  - reflexivity.
  - reflexivity.
  - intros j e' Hj. destruct j as [|j]; [|lia].
    intros [= <-]. discriminate.
Defined.

(** X2. A link that is set is an entry of the sequence. *)
Theorem getPreviousNextEntries_members s sequence :
  (∀ a, previous (getPreviousNextEntries s sequence) = Some a → a ∈ sequence)
  ∧ (∀ b, next (getPreviousNextEntries s sequence) = Some b → b ∈ sequence).
Proof.
  unfold getPreviousNextEntries, index. simpl. split; intros x.
  - destruct (0 <? _); [|discriminate].
    destruct (_ <? 0); [discriminate|]. apply list_elem_of_lookup_2.
  - destruct (_ <? _ - 1); [|discriminate].
    destruct (_ <? 0); [discriminate|]. apply list_elem_of_lookup_2.
Qed.

Lemma getPreviousNextEntries_members_witness :
  Demo.E "a" 1 ∈ [Demo.E "a" 1; Demo.E "b" 2; Demo.E "c" 3].
Proof.
  apply (proj1 (getPreviousNextEntries_members "b"
                  [Demo.E "a" 1; Demo.E "b" 2; Demo.E "c" 3])).
  reflexivity.
Defined.

(** X3. In a sequence whose slugs are pairwise distinct, the links agree:
    for two neighbours [a], [b], the next entry of [a]'s page is [b] and
    the previous entry of [b]'s page is [a]. *)
Theorem getPreviousNextEntries_neighbours
    (pre : list SequenceEntry) a b (post : list SequenceEntry) sa sb :
  NoDup (slug <$> (pre ++ a :: b :: post)%list) →
  slug a = Some sa →
  slug b = Some sb →
  next (getPreviousNextEntries sa (pre ++ a :: b :: post)%list) = Some b
  ∧ previous (getPreviousNextEntries sb (pre ++ a :: b :: post)%list) = Some a.
Proof.
  intros Hnd Ha Hb.
  rewrite fmap_app, !fmap_cons in Hnd.
  apply NoDup_app in Hnd as (_ & Hpre & Hrest).
  apply NoDup_cons in Hrest as [Hab _].
  split.
  - rewrite getPreviousNextEntries_split; [reflexivity| |exact Ha].
    apply Forall_forall. intros e' Hin Heq.
    apply (Hpre (slug e')); [by apply list_elem_of_fmap_2|].
    rewrite Heq, <- Ha. left.
  - rewrite (cons_middle a), app_assoc.
    rewrite getPreviousNextEntries_split; [by rewrite last_snoc| |exact Hb].
    apply Forall_app. split.
    + apply Forall_forall. intros e' Hin Heq.
      apply (Hpre (slug e')); [by apply list_elem_of_fmap_2|].
      rewrite Heq, <- Hb. right. left.
    + constructor; [|constructor]. intros Heq. apply Hab.
      rewrite Heq, <- Hb. left.
Qed.

Lemma getPreviousNextEntries_neighbours_witness :
  next (getPreviousNextEntries "b" [Demo.E "a" 1; Demo.E "b" 2; Demo.E "c" 3])
  = Some (Demo.E "c" 3)
  ∧ previous (getPreviousNextEntries "c" [Demo.E "a" 1; Demo.E "b" 2; Demo.E "c" 3])
    = Some (Demo.E "b" 2).
Proof.
  apply (getPreviousNextEntries_neighbours [Demo.E "a" 1] (Demo.E "b" 2)
           (Demo.E "c" 3) [] "b" "c"); [|reflexivity|reflexivity].
  apply (bool_decide_unpack _). vm_compute. exact I.
Defined.

(** X4. A page that is the only entry of its sequence gets no buttons. *)
Theorem renderButtons_single_page doc locale s e :
  slug e = Some s →
  renderButtons doc locale s (getPreviousNextEntries s [e]) = doc.
Proof.
  intros He.
  change [e] with ([] ++ e :: [])%list.
  rewrite (getPreviousNextEntries_split s [] e [] (Forall_nil_2 _) He).
  reflexivity.
Qed.

Lemma renderButtons_single_page_witness :
  renderButtons Demo.doc0 "en-US" "Guide/Intro"
    (getPreviousNextEntries "Guide/Intro" [Demo.E "Guide/Intro" 2])
  = Demo.doc0.
Proof.
  apply (renderButtons_single_page Demo.doc0 "en-US" "Guide/Intro"
           (Demo.E "Guide/Intro" 2)).
  reflexivity.
Defined.

Lemma getPreviousNextEntries_absent_witness :
  getPreviousNextEntries "z" [Demo.E "a" 1; Demo.E "b" 2]
  = {| previous := None; next := Some (Demo.E "a" 1) |}.
Proof.
  apply (getPreviousNextEntries_absent "z" [Demo.E "a" 1; Demo.E "b" 2]).
  repeat constructor; discriminate.
Defined.

(** ** Sequence builder: what a result tells *)

Lemma omap_full {A B} (f : A → option B) l :
  length (omap f l) = length l →
  Forall2 (λ x y, f x = Some y) l (omap f l).
Proof.
  induction l as [|x l IH]; csimpl; [constructor|].
  destruct (f x) as [y|] eqn:Hx; csimpl; intros Hlen.
  - constructor; [exact Hx|]. apply IH. lia.
  - pose proof (length_omap_le f l). lia.
Qed.

Section SequenceResults.
Variable path_join : list string → string.
Variable frontmatter : string → Result DocFrontmatter.

(** X6. Once the directory can be listed, [makeSequence] returns: no
    failure of a child escapes the loop. What it returns is in ascending
    order of weight and is empty or has one entry per subdirectory. *)
Theorem makeSequence_returns_sorted fs parent entries :
  readdirSync fs parent = Ok entries →
  ∃ sequence,
    makeSequence path_join frontmatter fs parent = Ok sequence
    ∧ StronglySorted weight_le sequence
    ∧ (sequence = []
       ∨ length sequence
         = length (filter (λ entry : Dirent, isDirectory entry) entries)).
Proof.
  intros Hdir. unfold makeSequence. rewrite Hdir. csimpl.
  rewrite foldl_pushChild, app_nil_l. case_decide as Hlen.
  - eexists. split; [reflexivity|]. split; [apply sort_sorted|].
    right. rewrite sort_perm. unfold len in Hlen. lia.
  - exists []. split; [reflexivity|]. split; [constructor|by left].
Qed.

(** X7. A non-empty result is complete and made of the children's pages
    only: every subdirectory holds a parsable guide page with a weight,
    and the result is the sort of their entries taken in scan order. *)
Theorem makeSequence_nonempty_complete fs parent entries sequence :
  readdirSync fs parent = Ok entries →
  makeSequence path_join frontmatter fs parent = Ok sequence →
  sequence ≠ [] →
  ∃ scan,
    Forall2 (contributes path_join frontmatter fs parent)
      (filter (λ entry : Dirent, isDirectory entry) entries) scan
    ∧ sequence = sort compareWeight scan.
Proof.
  intros Hdir. unfold makeSequence. rewrite Hdir. csimpl.
  rewrite foldl_pushChild, app_nil_l. case_decide as Hlen.
  - intros [= <-] _. eexists. split; [|reflexivity].
    eapply Forall2_impl; [apply omap_full; unfold len in Hlen; lia|].
    intros child entry. apply childEntry_contributes.
  - intros [= <-] Hne. done.
Qed.

(** X8. Entries of [parent] that are not directories play no part: a
    tree that lists only the subdirectories, with the same files, gives
    the same result. *)
Theorem makeSequence_ignores_files fs fs' parent entries :
  readdirSync fs parent = Ok entries →
  readdirSync fs' parent
  = Ok (filter (λ entry : Dirent, isDirectory entry) entries) →
  (∀ p, readFileSync fs' p = readFileSync fs p) →
  makeSequence path_join frontmatter fs' parent
  = makeSequence path_join frontmatter fs parent.
Proof.
  intros Hdir Hdir' Hread. unfold makeSequence. rewrite Hdir, Hdir'. csimpl.
  rewrite list_filter_filter.
  assert (filter (λ x : Dirent, isDirectory x ∧ isDirectory x) entries
          = filter (λ entry : Dirent, isDirectory entry) entries) as ->.
  { apply list_filter_iff. tauto. }
  assert (∀ children,
            foldl (pushChild path_join frontmatter fs' parent) [] children
            = foldl (pushChild path_join frontmatter fs parent) [] children) as ->.
  { intros children. rewrite !foldl_pushChild. f_equal.
    induction children as [|child children IH]; csimpl; [done|].
    rewrite IH. unfold childEntry, tryChild. by rewrite Hread. }
  reflexivity.
Qed.
End SequenceResults.

Lemma makeSequence_returns_sorted_witness :
  ∃ sequence,
    makeSequence Demo.path_join Demo.frontmatter Demo.fs "guide" = Ok sequence
    ∧ StronglySorted weight_le sequence
    ∧ (sequence = [] ∨ length sequence = 3%nat).
Proof.
  apply (makeSequence_returns_sorted Demo.path_join Demo.frontmatter Demo.fs
           "guide"
           [Demo.dir "intro"; Demo.file "index.md"; Demo.dir "setup"; Demo.dir "faq"]).
  reflexivity.
Defined.

Lemma makeSequence_nonempty_complete_witness :
  ∃ scan,
    Forall2 (contributes Demo.path_join Demo.frontmatter Demo.fs "bare")
      (filter (λ entry : Dirent, isDirectory entry)
         [Demo.dir "setup"; Demo.dir "noslug"]) scan
    ∧ [{| slug := None; weight := 0 |}; Demo.E "Guide/Setup" 1]
      = sort compareWeight scan.
Proof.
  apply (makeSequence_nonempty_complete Demo.path_join Demo.frontmatter Demo.fs
           "bare" [Demo.dir "setup"; Demo.dir "noslug"]).
  - reflexivity.
  - reflexivity.
  - discriminate.
Defined.

Lemma makeSequence_ignores_files_witness :
  makeSequence Demo.path_join Demo.frontmatter Demo.fs_dirs "guide"
  = makeSequence Demo.path_join Demo.frontmatter Demo.fs "guide".
Proof.
  apply (makeSequence_ignores_files Demo.path_join Demo.frontmatter
           Demo.fs Demo.fs_dirs "guide"
           [Demo.dir "intro"; Demo.file "index.md"; Demo.dir "setup"; Demo.dir "faq"]).
  - reflexivity.
  - reflexivity.
  - intros p. reflexivity.
Defined.

(** ** The comparator and the sort *)

(** X9. The comparator of [makeSequence] is a consistent one: swapping
    the arguments flips the sign, it is zero exactly on equal weights, and
    "not after" is transitive. *)
Theorem compareWeight_consistent a b c :
  compareWeight a b = - compareWeight b a
  ∧ (compareWeight a b = 0 ↔ weight a = weight b)
  ∧ (compareWeight a b ≤ 0 → compareWeight b c ≤ 0 → compareWeight a c ≤ 0).
Proof.
  unfold compareWeight. rewrite !Z.gtb_ltb.
  destruct (Z.ltb_spec (weight b) (weight a)),
           (Z.ltb_spec (weight a) (weight b)),
           (Z.ltb_spec (weight c) (weight b)),
           (Z.ltb_spec (weight b) (weight c)),
           (Z.ltb_spec (weight c) (weight a)),
           (Z.ltb_spec (weight a) (weight c));
    repeat split; intros; lia.
Qed.

Lemma compareWeight_consistent_witness :
  compareWeight (Demo.E "a" 1) (Demo.E "c" 3) ≤ 0.
Proof.
  apply (compareWeight_consistent (Demo.E "a" 1) (Demo.E "b" 2) (Demo.E "c" 3));
    vm_compute; discriminate.
Defined.

Lemma stable_sort_unique_witness :
  [Demo.E "b" 1; Demo.E "a" 2; Demo.E "c" 2]
  = sort compareWeight [Demo.E "a" 2; Demo.E "b" 1; Demo.E "c" 2].
Proof.
  apply (stable_sort_unique [Demo.E "a" 2; Demo.E "b" 1; Demo.E "c" 2]
           [Demo.E "b" 1; Demo.E "a" 2; Demo.E "c" 2]).
  - repeat constructor; unfold weight_le; simpl; lia.
  - intros w. rewrite !filter_cons, !filter_nil. simpl.
    repeat case_decide; try reflexivity; lia.
Defined.

Section SortedResults.
Variable path_join : list string → string.
Variable frontmatter : string → Result DocFrontmatter.

Lemma makeSequence_Ok_sorted fs parent sequence :
  makeSequence path_join frontmatter fs parent = Ok sequence →
  StronglySorted weight_le sequence.
Proof.
  unfold makeSequence.
  destruct (readdirSync fs parent) as [entries|e]; csimpl; [|discriminate].
  case_decide; intros [= <-]; [apply sort_sorted|constructor].
Qed.

(** X11. Sorting what [makeSequence] returned changes nothing: a cached
    sequence is already in the order the sort gives. *)
Theorem makeSequence_result_is_sort_fixpoint fs parent sequence :
  makeSequence path_join frontmatter fs parent = Ok sequence →
  sort compareWeight sequence = sequence.
Proof.
  intros H. apply makeSequence_Ok_sorted in H.
  apply sorted_stable_eq; [apply sort_sorted|exact H|].
  intros w. apply sort_stable.
Qed.
End SortedResults.

Lemma makeSequence_result_is_sort_fixpoint_witness :
  sort compareWeight
    [Demo.E "Guide/Setup" 1; Demo.E "Guide/Intro" 2; Demo.E "Guide/FAQ" 2]
  = [Demo.E "Guide/Setup" 1; Demo.E "Guide/Intro" 2; Demo.E "Guide/FAQ" 2].
Proof.
  apply (makeSequence_result_is_sort_fixpoint Demo.path_join Demo.frontmatter
           Demo.fs "guide").
  reflexivity.
Defined.

(** ** The cache and the navigation pass *)

Section CacheInvariants.
Variable path_join : list string → string.
Variable frontmatter : string → Result DocFrontmatter.

(** X12. A resolution never drops or replaces a cached sequence, and
    touches no key but its own. *)
Theorem cachedSequence_keeps_cache fs parent st sequence st1 :
  cachedSequence path_join frontmatter fs parent st = Ok (sequence, st1) →
  (∀ k s, pageSequences st !! k = Some s → pageSequences st1 !! k = Some s)
  ∧ (∀ k, k ≠ parent → pageSequences st1 !! k = pageSequences st !! k).
Proof.
  intros H. destruct (pageSequences st !! parent) as [cached|] eqn:Hlook.
  - rewrite (cachedSequence_hit _ _ fs _ _ _ Hlook) in H.
    injection H as <- <-. done.
  - apply (cachedSequence_miss _ _ _ _ _ _ _ Hlook) in H as [_ ->]. simpl.
    split.
    + intros k s Hk. rewrite lookup_insert_ne; [done|]. congruence.
    + intros k Hk. by rewrite lookup_insert_ne.
Qed.

(** X13. The cache holds sorted sequences only: if it does before a page
    is processed, it does after. *)
Theorem injectPreviousNext_keeps_cache_sorted
    fs doc locale fileInfo slug_ st doc' st1 :
  map_Forall (λ _ sequence, StronglySorted weight_le sequence) (pageSequences st) →
  injectPreviousNext path_join frontmatter fs doc locale fileInfo slug_ st
  = Ok (doc', st1) →
  map_Forall (λ _ sequence, StronglySorted weight_le sequence) (pageSequences st1).
Proof.
  intros Hinv. unfold injectPreviousNext.
  destruct (cachedSequence _ _ _ _ _) as [[sequence st']|e] eqn:Hc; csimpl;
    [|discriminate].
  intros [= _ <-].
  destruct (pageSequences st !! path_join [root fileInfo; folder fileInfo; "../"])
    as [cached|] eqn:Hlook.
  - rewrite (cachedSequence_hit _ _ fs _ _ _ Hlook) in Hc.
    by injection Hc as _ <-.
  - apply (cachedSequence_miss _ _ _ _ _ _ _ Hlook) in Hc as [Hmake ->]. simpl.
    apply map_Forall_insert_2; [|exact Hinv].
    by eapply makeSequence_Ok_sorted.
Qed.

(** X14. The navigation pass leaves [div#_body] alone and adds at most
    one element, in front, to [<body>]. *)
Theorem injectPreviousNext_frame fs doc locale fileInfo slug_ st doc' st1 :
  injectPreviousNext path_join frontmatter fs doc locale fileInfo slug_ st
  = Ok (doc', st1) →
  div_body doc' = div_body doc
  ∧ (body doc' = body doc ∨ ∃ html, body doc' = html :: body doc).
Proof.
  unfold injectPreviousNext.
  destruct (cachedSequence _ _ _ _ _) as [[sequence st']|e]; csimpl;
    [|discriminate].
  intros [= <- _]. unfold renderButtons.
  destruct (previous _), (next _); simpl; eauto.
Qed.

(** X15. A directory found not to be a sequence is remembered as such:
    the page gets no buttons and the empty sequence is cached; after that,
    in every state that still holds what was cached, every page with the
    same parent directory, the first one or a sibling, gets no buttons and
    causes no scan, whatever the file system has become. *)
Theorem injectPreviousNext_invalid_directory
    fs fs' doc doc' locale locale' fileInfo fileInfo' slug1 slug2 st :
  pageSequences st !! path_join [root fileInfo; folder fileInfo; "../"] = None →
  makeSequence path_join frontmatter fs
    (path_join [root fileInfo; folder fileInfo; "../"]) = Ok [] →
  path_join [root fileInfo'; folder fileInfo'; "../"]
  = path_join [root fileInfo; folder fileInfo; "../"] →
  ∃ st1,
    injectPreviousNext path_join frontmatter fs doc locale fileInfo slug1 st
    = Ok (doc, st1)
    ∧ pageSequences st1 !! path_join [root fileInfo; folder fileInfo; "../"]
      = Some []
    ∧ ∀ st2,
        (∀ k s, pageSequences st1 !! k = Some s → pageSequences st2 !! k = Some s) →
        injectPreviousNext path_join frontmatter fs' doc' locale' fileInfo' slug2 st2
        = Ok (doc', st2).
Proof.
  intros Hlook Hmake Hsame. eexists. unfold injectPreviousNext at 1.
  unfold cachedSequence. rewrite Hlook, Hmake. csimpl.
  split; [reflexivity|]. simpl pageSequences.
  split; [apply lookup_insert_eq|].
  intros st2 Hext. unfold injectPreviousNext. rewrite Hsame.
  rewrite (cachedSequence_hit _ _ fs' _ st2 []
             (Hext _ _ (lookup_insert_eq _ _ _))).
  csimpl. done.
Qed.

(** X16. When the parent directory cannot be listed and is not in the
    cache, the pass throws what [readdirSync] threw. *)
Theorem injectPreviousNext_unlistable_parent
    fs doc locale fileInfo slug_ st e :
  pageSequences st !! path_join [root fileInfo; folder fileInfo; "../"] = None →
  readdirSync fs (path_join [root fileInfo; folder fileInfo; "../"]) = Throw e →
  injectPreviousNext path_join frontmatter fs doc locale fileInfo slug_ st
  = Throw e.
Proof.
  intros Hlook Hdir. unfold injectPreviousNext, cachedSequence, makeSequence.
  by rewrite Hlook, Hdir.
Qed.

(** X17. A page found in the cached sequence of its parent directory gets
    the buttons for the entry before it and the entry after it, and the
    state is left as it is. *)
Theorem injectPreviousNext_page_in_sequence
    fs doc locale fileInfo slug_ st before e after :
  pageSequences st !! path_join [root fileInfo; folder fileInfo; "../"]
  = Some (before ++ e :: after)%list →
  Forall (λ e', slug e' ≠ Some slug_) before →
  slug e = Some slug_ →
  injectPreviousNext path_join frontmatter fs doc locale fileInfo slug_ st
  = Ok (renderButtons doc locale slug_
          {| previous := last before; next := head after |}, st).
Proof.
  intros Hlook Hbefore He. unfold injectPreviousNext.
  rewrite (cachedSequence_hit _ _ fs _ _ _ Hlook). csimpl.
  by rewrite getPreviousNextEntries_split.
Qed.
End CacheInvariants.

Lemma cachedSequence_keeps_cache_witness :
  (∀ k s, pageSequences Demo.stGuide !! k = Some s →
          pageSequences
            {| pageSequences := <["mixed" := []]> (pageSequences Demo.stGuide);
               scanned := "mixed" :: scanned Demo.stGuide |} !! k = Some s)
  ∧ (∀ k, k ≠ "mixed" →
          pageSequences
            {| pageSequences := <["mixed" := []]> (pageSequences Demo.stGuide);
               scanned := "mixed" :: scanned Demo.stGuide |} !! k
          = pageSequences Demo.stGuide !! k).
Proof.
  apply (cachedSequence_keeps_cache Demo.path_join Demo.frontmatter Demo.fs
           "mixed" Demo.stGuide []).
  reflexivity.
Defined.

Lemma injectPreviousNext_keeps_cache_sorted_witness :
  injectPreviousNext Demo.path_join_node Demo.frontmatter Demo.fs_site Demo.doc0
    "en-US" Demo.guideIntro "Guide/Intro" Demo.stOther
  = Ok (renderButtons Demo.doc0 "en-US" "Guide/Intro"
          {| previous := Some (Demo.E "Guide/Setup" 1); next := None |},
        {| pageSequences :=
             <["site/guide/" := [Demo.E "Guide/Setup" 1; Demo.E "Guide/Intro" 2]]>
               (pageSequences Demo.stOther);
           scanned := "site/guide/" :: scanned Demo.stOther |})
  ∧ map_Forall (λ _ sequence, StronglySorted weight_le sequence)
      (<["site/guide/" := [Demo.E "Guide/Setup" 1; Demo.E "Guide/Intro" 2]]>
         (pageSequences Demo.stOther)).
Proof.
  assert (injectPreviousNext Demo.path_join_node Demo.frontmatter Demo.fs_site
            Demo.doc0 "en-US" Demo.guideIntro "Guide/Intro" Demo.stOther
          = Ok (renderButtons Demo.doc0 "en-US" "Guide/Intro"
                  {| previous := Some (Demo.E "Guide/Setup" 1); next := None |},
                {| pageSequences :=
                     <["site/guide/" :=
                         [Demo.E "Guide/Setup" 1; Demo.E "Guide/Intro" 2]]>
                       (pageSequences Demo.stOther);
                   scanned := "site/guide/" :: scanned Demo.stOther |}))
    as Hrun by reflexivity.
  split; [exact Hrun|].
  refine (injectPreviousNext_keeps_cache_sorted Demo.path_join_node
            Demo.frontmatter Demo.fs_site Demo.doc0 "en-US" Demo.guideIntro
            "Guide/Intro" Demo.stOther _ _ _ Hrun).
  apply map_Forall_singleton.
  repeat constructor; unfold weight_le; simpl; lia.
Defined.

Lemma injectPreviousNext_frame_witness :
  div_body
    (renderButtons Demo.doc0 "en-US" "Guide/Intro"
       {| previous := Some (Demo.E "Guide/Setup" 1);
          next := Some (Demo.E "Guide/FAQ" 2) |})
  = div_body Demo.doc0
  ∧ (body
       (renderButtons Demo.doc0 "en-US" "Guide/Intro"
          {| previous := Some (Demo.E "Guide/Setup" 1);
             next := Some (Demo.E "Guide/FAQ" 2) |})
     = body Demo.doc0
     ∨ ∃ html,
         body
           (renderButtons Demo.doc0 "en-US" "Guide/Intro"
              {| previous := Some (Demo.E "Guide/Setup" 1);
                 next := Some (Demo.E "Guide/FAQ" 2) |})
         = html :: body Demo.doc0).
Proof.
  apply (injectPreviousNext_frame Demo.path_join Demo.frontmatter
           Demo.fs_gone Demo.doc0 "en-US" Demo.fileInfo "Guide/Intro"
           Demo.stGuide _ Demo.stGuide).
  reflexivity.
Defined.

Lemma injectPreviousNext_invalid_directory_witness :
  ∃ st1,
    injectPreviousNext Demo.path_join_node Demo.frontmatter Demo.fs_site
      Demo.doc0 "en-US" Demo.mixedIntro "Mixed/Intro" Demo.stOther
    = Ok (Demo.doc0, st1)
    ∧ pageSequences st1 !! "site/mixed/" = Some []
    ∧ ∀ st2,
        (∀ k s, pageSequences st1 !! k = Some s → pageSequences st2 !! k = Some s) →
        injectPreviousNext Demo.path_join_node Demo.frontmatter Demo.fs_gone
          Demo.doc0 "fr" Demo.mixedDraft "Mixed/Draft" st2
        = Ok (Demo.doc0, st2).
Proof.
  apply (injectPreviousNext_invalid_directory Demo.path_join_node
           Demo.frontmatter Demo.fs_site Demo.fs_gone Demo.doc0 Demo.doc0
           "en-US" "fr" Demo.mixedIntro Demo.mixedDraft
           "Mixed/Intro" "Mixed/Draft" Demo.stOther).
  - reflexivity.
  - reflexivity.
  - reflexivity.
Defined.

Lemma injectPreviousNext_unlistable_parent_witness :
  injectPreviousNext Demo.path_join Demo.frontmatter Demo.fs_gone Demo.doc0
    "en-US" Demo.fileInfo "Guide/Intro" Demo.st0
  = Throw SystemError.
Proof.
  apply (injectPreviousNext_unlistable_parent Demo.path_join Demo.frontmatter
           Demo.fs_gone Demo.doc0 "en-US" Demo.fileInfo "Guide/Intro" Demo.st0);
    reflexivity.
Defined.

Lemma injectPreviousNext_page_in_sequence_witness :
  injectPreviousNext Demo.path_join Demo.frontmatter Demo.fs_gone Demo.doc0
    "en-US" Demo.fileInfo "Guide/Intro" Demo.stGuide
  = Ok (renderButtons Demo.doc0 "en-US" "Guide/Intro"
          {| previous := Some (Demo.E "Guide/Setup" 1);
             next := Some (Demo.E "Guide/FAQ" 2) |},
        Demo.stGuide).
Proof.
  apply (injectPreviousNext_page_in_sequence Demo.path_join Demo.frontmatter
           Demo.fs_gone Demo.doc0 "en-US" Demo.fileInfo "Guide/Intro"
           Demo.stGuide [Demo.E "Guide/Setup" 1] (Demo.E "Guide/Intro" 2)
           [Demo.E "Guide/FAQ" 2]).
  - reflexivity.
  - repeat constructor. discriminate.
  - reflexivity.
Defined.

(** ** The banner pass *)

Section BannerPass.
Variable path_join : list string → string.
Variable JSON_parse : string → Result L10nStrings.
Variable DEFAULT_LOCALE : string.
Variable packageBCD : string → option Bcd.

(** X18. Once the table is not empty it is never read from disk again:
    the pass gives the same result on any file system and hands the table
    back as it got it. *)
Theorem injectBanners_table_loaded_once
    fs fs' doc root_ locale metadata (l10nStrings : L10nStrings) :
  size l10nStrings ≠ 0%nat →
  injectBanners path_join JSON_parse DEFAULT_LOCALE packageBCD
    fs' doc root_ locale metadata l10nStrings
  = injectBanners path_join JSON_parse DEFAULT_LOCALE packageBCD
      fs doc root_ locale metadata l10nStrings
  ∧ ∀ doc' l10nStrings',
      injectBanners path_join JSON_parse DEFAULT_LOCALE packageBCD
        fs doc root_ locale metadata l10nStrings
      = Ok (doc', l10nStrings') →
      l10nStrings' = l10nStrings.
Proof.
  intros Hsize. unfold injectBanners, initL10nStrings.
  rewrite !decide_False by done. csimpl. split; [reflexivity|].
  intros doc' l10n'.
  destruct (injectSecure _ _ _ _ _) as [doc1|e]; csimpl; [|discriminate].
  destruct (injectBcd _ _ _ _ _ _) as [doc2|e]; csimpl; [|discriminate].
  by intros [= _ <-].
Qed.

(** X19. While the table is empty, a page cannot be processed without the
    table file: when reading it fails, the pass throws that error, also
    for a page that asks for no banner. *)
Theorem injectBanners_table_unreadable
    fs doc root_ locale metadata (l10nStrings : L10nStrings) e :
  size l10nStrings = 0%nat →
  readFileSync fs (path_join [root_; "jsondata"; "L10n-Common.json"]) = Throw e →
  injectBanners path_join JSON_parse DEFAULT_LOCALE packageBCD
    fs doc root_ locale metadata l10nStrings
  = Throw e.
Proof.
  intros Hsize Hread. unfold injectBanners, initL10nStrings.
  rewrite decide_True by done. by rewrite Hread.
Qed.

(** X20. An empty string for the locale asked for suppresses the banner:
    [??] keeps it, so there is no fall back to the default locale, and
    the empty message is not emitted. *)
Theorem injectBanner_empty_string_no_fallback
    (l10nStrings : L10nStrings) doc locale messageId bannerClass
    (block : gmap string string) :
  l10nStrings !! messageId = Some block →
  block !! locale = Some EmptyString →
  injectBanner DEFAULT_LOCALE l10nStrings doc locale messageId bannerClass
  = Ok doc.
Proof.
  intros Hblock Hlocale. unfold injectBanner, getL10nString.
  by rewrite Hblock, Hlocale.
Qed.


(** X22. A page that neither requires a secure context nor has a
    "browser-compat" key comes back unchanged, whatever the table holds. *)
Theorem injectBanners_nothing_to_add
    fs doc root_ locale metadata (l10nStrings0 l10nStrings : L10nStrings) :
  initL10nStrings path_join JSON_parse fs root_ l10nStrings0 = Ok l10nStrings →
  (∀ security, security_requirements metadata = Some security →
               "secure-context" ∉ security) →
  browser_compat metadata = None →
  injectBanners path_join JSON_parse DEFAULT_LOCALE packageBCD
    fs doc root_ locale metadata l10nStrings0
  = Ok (doc, l10nStrings).
Proof.
  intros Hinit Hsecurity Hbcd. unfold injectBanners. rewrite Hinit. csimpl.
  unfold injectSecure, injectBcd. rewrite Hbcd.
  destruct (security_requirements metadata) as [security|]; [|done].
  rewrite bool_decide_eq_false_2 by by apply Hsecurity.
  done.
Qed.

(** X23. The banner pass leaves [<body>] alone and puts at most three
    elements in front of the children of [div#_body]. *)
Theorem injectBanners_frame
    fs doc root_ locale metadata (l10nStrings : L10nStrings) doc' l10nStrings' :
  injectBanners path_join JSON_parse DEFAULT_LOCALE packageBCD
    fs doc root_ locale metadata l10nStrings
  = Ok (doc', l10nStrings') →
  body doc' = body doc
  ∧ ∃ added,
      div_body doc' = (added ++ div_body doc)%list ∧ (length added ≤ 3)%nat.
Proof.
  unfold injectBanners.
  destruct (initL10nStrings _ _ _ _ _) as [l10n|e]; csimpl; [|discriminate].
  destruct (injectSecure _ _ _ _ _) as [doc1|e] eqn:Hsecure; csimpl;
    [|discriminate].
  destruct (injectBcd _ _ _ _ _ _) as [doc2|e] eqn:Hbcd; csimpl; [|discriminate].
  intros [= <- _].
  assert (body doc1 = body doc
          ∧ ∃ added1, div_body doc1 = (added1 ++ div_body doc)%list
                      ∧ (length added1 ≤ 1)%nat) as (Hb1 & added1 & Hd1 & Hl1).
  { apply injectSecure_adds in Hsecure as [->|[message ->]].
    - split; [done|]. exists []. split; [done|simpl; lia].
    - split; [done|]. exists [notecard "secure" message].
      split; [done|simpl; lia]. }
  assert (body doc2 = body doc1
          ∧ ∃ added2, div_body doc2 = (added2 ++ div_body doc1)%list
                      ∧ (length added2 ≤ 2)%nat) as (Hb2 & added2 & Hd2 & Hl2).
  { revert Hbcd. unfold injectBcd.
    destruct (browser_compat metadata) as [[bcdQuery|queries]|].
    2,3: intros [= <-]; split; [done|]; exists []; split; [done|simpl; lia].
    destruct (truthy bcdQuery).
    2: intros [= <-]; split; [done|]; exists []; split; [done|simpl; lia].
    assert (∀ (flag : bool) d messageId bannerClass d',
              (if flag
               then injectBanner DEFAULT_LOCALE l10n d locale messageId bannerClass
               else mret d) = Ok d' →
              body d' = body d
              ∧ ∃ added, div_body d' = (added ++ div_body d)%list
                         ∧ (length added ≤ 1)%nat) as Hstep.
    { intros flag d messageId bannerClass d' H. destruct flag.
      - apply injectBanner_adds in H as [->|[message ->]].
        + split; [done|]. exists []. split; [done|simpl; lia].
        + split; [done|]. eexists [_]. split; [done|simpl; lia].
      - injection H as <-. split; [done|]. exists []. split; [done|simpl; lia]. }
    cbv zeta.
    destruct (if statusFlag experimental (packageBCD bcdQuery) then _ else _)
      as [docE|e] eqn:HE; csimpl; [|discriminate].
    intros HD.
    apply Hstep in HE as (HbE & addedE & HdE & HlE).
    apply Hstep in HD as (HbD & addedD & HdD & HlD).
    split; [congruence|]. exists (addedD ++ addedE)%list.
    rewrite HdD, HdE, <- app_assoc, length_app. split; [done|lia]. }
  split; [congruence|]. exists (added2 ++ added1)%list.
  rewrite Hd2, Hd1, <- app_assoc, length_app. split; [done|lia].
Qed.

(** X24. A "browser-compat" value that is the empty string, or a query
    for which the resolver has nothing, leads to the same result as no
    "browser-compat" key at all. *)
Theorem injectBanners_unresolved_query
    fs doc root_ locale metadata (l10nStrings : L10nStrings) bcdQuery :
  browser_compat metadata = Some (BcdString bcdQuery) →
  truthy bcdQuery = false ∨ packageBCD bcdQuery = None →
  injectBanners path_join JSON_parse DEFAULT_LOCALE packageBCD
    fs doc root_ locale metadata l10nStrings
  = injectBanners path_join JSON_parse DEFAULT_LOCALE packageBCD
      fs doc root_ locale
      {| security_requirements := security_requirements metadata;
         browser_compat := None |}
      l10nStrings.
Proof.
  intros Hquery Hcase.
  assert (∀ l10n d,
            injectBcd DEFAULT_LOCALE packageBCD l10n d locale metadata = Ok d)
    as Hskip.
  { intros l10n d. unfold injectBcd. rewrite Hquery.
    destruct Hcase as [->|Hnone]; [done|].
    rewrite Hnone. simpl. by destruct (truthy bcdQuery). }
  unfold injectBanners.
  destruct (initL10nStrings _ _ _ _ _) as [l10n|e]; csimpl; [|done].
  unfold injectSecure at 2. simpl security_requirements.
  fold (injectSecure DEFAULT_LOCALE l10n doc locale metadata).
  destruct (injectSecure _ _ _ _ _) as [doc1|e]; csimpl; [|done].
  by rewrite Hskip.
Qed.

End BannerPass.

Lemma injectBanners_table_loaded_once_witness :
  injectBanners Demo.path_join Demo.JSON_parse "en-US" Demo.packageBCD
    Demo.fs_gone Demo.doc0 "root" "fr" Demo.secureFoo Demo.l10nStrings
  = injectBanners Demo.path_join Demo.JSON_parse "en-US" Demo.packageBCD
      Demo.fs Demo.doc0 "root" "fr" Demo.secureFoo Demo.l10nStrings.
Proof.
  apply (injectBanners_table_loaded_once Demo.path_join Demo.JSON_parse "en-US"
           Demo.packageBCD Demo.fs Demo.fs_gone Demo.doc0 "root" "fr"
           Demo.secureFoo Demo.l10nStrings).
  vm_compute. discriminate.
Defined.

Lemma injectBanners_table_unreadable_witness :
  injectBanners Demo.path_join Demo.JSON_parse "en-US" Demo.packageBCD
    Demo.fs_gone Demo.doc0 "root" "fr" Demo.plain ∅
  = Throw SystemError.
Proof.
  apply (injectBanners_table_unreadable Demo.path_join Demo.JSON_parse "en-US"
           Demo.packageBCD Demo.fs_gone Demo.doc0 "root" "fr" Demo.plain ∅);
    reflexivity.
Defined.

Lemma injectBanner_empty_string_no_fallback_witness :
  Demo.blockEmptyFr !! "en-US" = Some "Deprecated"
  ∧ injectBanner "en-US" Demo.l10nEmptyFr Demo.doc0 "fr"
      "DeprecatedBanner" "deprecated"
    = Ok Demo.doc0.
Proof.
  split; [reflexivity|].
  apply (injectBanner_empty_string_no_fallback "en-US" Demo.l10nEmptyFr
           Demo.doc0 "fr" "DeprecatedBanner" "deprecated" Demo.blockEmptyFr);
    reflexivity.
Defined.


Lemma injectBanners_nothing_to_add_witness :
  injectBanners Demo.path_join Demo.JSON_parse "en-US" Demo.packageBCD
    Demo.fs Demo.doc0 "root" "fr" Demo.plain Demo.l10nStrings
  = Ok (Demo.doc0, Demo.l10nStrings).
Proof.
  apply (injectBanners_nothing_to_add Demo.path_join Demo.JSON_parse "en-US"
           Demo.packageBCD Demo.fs Demo.doc0 "root" "fr" Demo.plain
           Demo.l10nStrings Demo.l10nStrings).
  - reflexivity.
  - intros security [= <-] Hin.
    apply list_elem_of_singleton in Hin. discriminate.
  - reflexivity.
Defined.

Lemma injectBanners_frame_witness :
  body
    {| body := [];
       div_body := [notecard "deprecated" "Deprecated";
                    notecard "experimental" "Experimental";
                    notecard "secure" "Secure context"] |}
  = body Demo.doc0
  ∧ ∃ added,
      div_body
        {| body := [];
           div_body := [notecard "deprecated" "Deprecated";
                        notecard "experimental" "Experimental";
                        notecard "secure" "Secure context"] |}
      = (added ++ div_body Demo.doc0)%list
      ∧ (length added ≤ 3)%nat.
Proof.
  apply (injectBanners_frame Demo.path_join Demo.JSON_parse "en-US"
           Demo.packageBCD Demo.fs Demo.doc0 "root" "fr" Demo.secureFoo
           Demo.l10nStrings _ Demo.l10nStrings).
  vm_compute. reflexivity.
Defined.

Lemma injectBanners_unresolved_query_witness :
  injectBanners Demo.path_join Demo.JSON_parse "en-US" Demo.packageBCD
    Demo.fs Demo.doc0 "root" "fr" Demo.unknownQuery Demo.l10nStrings
  = injectBanners Demo.path_join Demo.JSON_parse "en-US" Demo.packageBCD
      Demo.fs Demo.doc0 "root" "fr" Demo.secureOnly Demo.l10nStrings.
Proof.
  apply (injectBanners_unresolved_query Demo.path_join Demo.JSON_parse "en-US"
           Demo.packageBCD Demo.fs Demo.doc0 "root" "fr" Demo.unknownQuery
           Demo.l10nStrings "api.Bar").
  - reflexivity.
  - right. reflexivity.
Defined.


(** ** The parent slug *)

Lemma occurs_split sep s :
  occurs sep s = true →
  ∃ prefix segment,
    occurs sep segment = false ∧ s = prefix +:+ String sep segment.
Proof.
  induction s as [|c s IH]; simpl; [discriminate|].
  destruct (occurs sep s) eqn:Hs.
  - intros _. destruct (IH eq_refl) as (prefix & segment & Hseg & ->).
    exists (String c prefix), segment. done.
  - rewrite orb_false_r. intros Hc. apply Ascii.eqb_eq in Hc as ->.
    exists EmptyString, s. done.
Qed.

(** X26. A slug that has a slash is its parent slug, a slash, and a last
    segment without slash. *)
Theorem parentSlug_then_last_segment slug_ :
  occurs "/" slug_ = true →
  ∃ segment,
    occurs "/" segment = false
    ∧ slug_ = parentSlug slug_ +:+ "/" +:+ segment.
Proof.
  intros H. destruct (occurs_split _ _ H) as (prefix & segment & Hseg & ->).
  exists segment. split; [exact Hseg|].
  change (prefix +:+ String "/" segment) with (prefix +:+ "/" +:+ segment).
  by rewrite parentSlug_nested.
Qed.

Lemma parentSlug_then_last_segment_witness :
  ∃ segment,
    occurs "/" segment = false
    ∧ "Web/Guide/Intro" = parentSlug "Web/Guide/Intro" +:+ "/" +:+ segment.
Proof.
  apply (parentSlug_then_last_segment "Web/Guide/Intro").
  reflexivity.
Defined.
